(** * twister.c: the MT19937 engine (Cokus recode) and the SBOOT seed search

    A shallow embedding of [src/twister.c].  Unsigned 32-bit values are
    integers of [Z] with the wrap-around written where the C code can
    overflow; the state vector is a list of words updated by index; pointers
    into the state vector are indices; the three file-scope variables
    [state], [next] and [left] are the fields of one record that every
    function threads through. *)

From Stdlib Require Import ZArith List Lia Bool String Ascii Zpow_facts.
From stdpp Require Import base option list.
From Bignums Require Import BigZ.

Local Open Scope Z_scope.

(** ** Machine integers *)

Definition wrap32 (x : Z) : Z := x mod 2 ^ 32.

Definition u8 (x : Z) : Prop := 0 <= x < 2 ^ 8.
Definition u32 (x : Z) : Prop := 0 <= x < 2 ^ 32.

(** ** Constants and macros (lines 53-59) *)

Definition N : nat := 624.
Definition M : nat := 397.
Definition K : Z := 0x9908B0DF.

Definition hiBit (u : Z) : Z := Z.land u 0x80000000.
Definition loBit (u : Z) : Z := Z.land u 0x00000001.
Definition loBits (u : Z) : Z := Z.land u 0x7FFFFFFF.
Definition mixBits (u v : Z) : Z := Z.lor (hiBit u) (loBits v).

(** ** The engine's file-scope variables (lines 61-63)

    [state] has [N + 1] words; [next] is [None] for the null pointer and
    [Some i] for [state + i]; [left] is a C [int]. *)

Record MT : Type := mkMT {
  state : list Z;
  next : option nat;
  left : Z
}.

(** The variables as the C runtime zero-initialises them, with the explicit
    initialiser [left = -1]. *)
Definition fresh : MT :=
  {| state := replicate (S N) 0; next := None; left := -1 |}.

(** ** seedMT (lines 65-119) *)

(** The [for] loop of line 116: the condition [--j] is tested before each
    round, the round stores [(x *= 69069U) & 0xFFFFFFFFU] through [s++]. *)
Fixpoint seedMT_loop (j : nat) (s : nat) (x : Z) (st : list Z) : list Z :=
  match j with
  | S (S _ as j') =>
      let x' := wrap32 (x * 69069) in
      seedMT_loop j' (S s) x' (<[s := Z.land x' 0xFFFFFFFF]> st)
  | _ => st
  end.

Definition seedMT (seed : Z) (mt : MT) : MT :=
  let x := Z.land (Z.lor seed 1) 0xFFFFFFFF in
  {| state := seedMT_loop N 1 x (<[0%nat := x]> (state mt));
     next := next mt;
     left := 0 |}.

(** ** reloadMT (lines 121-142) *)

(** The right-hand side of lines 132, 135 and 137. *)
Definition twist (m s0 s1 : Z) : Z :=
  Z.lxor (Z.lxor m (Z.shiftr (mixBits s0 s1) 1))
         (if loBit s1 =? 0 then 0 else K).

(** The tempering of lines 138-141 and 152-155; [<<] on a [uint32_t] drops
    the bits shifted out. *)
Definition temper (y : Z) : Z :=
  let y := Z.lxor y (Z.shiftr y 11) in
  let y := Z.lxor y (Z.land (wrap32 (Z.shiftl y 7)) 0x9D2C5680) in
  let y := Z.lxor y (Z.land (wrap32 (Z.shiftl y 15)) 0xEFC60000) in
  Z.lxor y (Z.shiftr y 18).

(** The registers of the two [for] loops of [reloadMT]. *)
Record regs : Type := mkRegs {
  p0 : nat; p2 : nat; pM : nat; s0 : Z; s1 : Z; mem : list Z
}.

(** One round: [*p0++ = *pM++ ^ ...] then [s0 = s1, s1 = *p2++]. *)
Definition reload_round (r : regs) : regs :=
  let mem' := <[p0 r := twist (mem r !!! pM r) (s0 r) (s1 r)]> (mem r) in
  {| p0 := S (p0 r); p2 := S (p2 r); pM := S (pM r);
     s0 := s1 r; s1 := mem' !!! p2 r; mem := mem' |}.

Fixpoint reload_loop (j : nat) (r : regs) : regs :=
  match j with
  | S (S _ as j') => reload_loop j' (reload_round r)
  | _ => r
  end.

(** Line 131, first clause: the registers on entry to the first loop. *)
Definition reload_init (st : list Z) : regs :=
  {| p0 := 0; p2 := 2; pM := M;
     s0 := st !!! 0%nat; s1 := st !!! 1%nat; mem := st |}.

(** Line 134, first clause: [pM = state] on entry to the second loop. *)
Definition reload_wrap (r : regs) : regs :=
  {| p0 := p0 r; p2 := p2 r; pM := 0; s0 := s0 r; s1 := s1 r; mem := mem r |}.

(** Lines 137-141 with the assignments of line 129: the last word of the
    batch, the tempered first word, the countdown and the cursor. *)
Definition reload_last (r : regs) : Z * MT :=
  let s1 := mem r !!! 0%nat in
  (temper s1,
   {| state := <[p0 r := twist (mem r !!! pM r) (s0 r) s1]> (mem r);
      next := Some 1%nat;
      left := Z.of_nat N - 1 |}).

(** Lines 129-141: one batch from the state vector [st]. *)
Definition regenerate (st : list Z) : Z * MT :=
  let r := reload_loop (N - M + 1) (reload_init st) in
  let r := reload_loop M (reload_wrap r) in
  reload_last r.

Definition reloadMT (mt : MT) : Z * MT :=
  let mt := if left mt <? -1 then seedMT 1 mt else mt in
  regenerate (state mt).

(** ** randomMT (lines 144-156)

    [--left] is stored before the test.  Reading through a null or
    out-of-range [next] has no defined result: [None]. *)
Definition randomMT (mt : MT) : option (Z * MT) :=
  let l := left mt - 1 in
  if l <? 0 then
    Some (reloadMT {| state := state mt; next := next mt; left := l |})
  else
    i ← next mt;
    y ← state mt !! i;
    Some (temper y, {| state := state mt; next := Some (S i); left := l |}).

(** The first [n] values of consecutive [randomMT] calls, and the engine
    they leave. *)
Fixpoint draw (n : nat) (mt : MT) : option (list Z * MT) :=
  match n with
  | O => Some ([], mt)
  | S n' =>
      '(w, mt) ← randomMT mt;
      '(ws, mt) ← draw n' mt;
      Some (w :: ws, mt)
  end.

(** ** bswap32 (lines 158-164) *)

Definition bswap32 (x : Z) : Z :=
  Z.lor (Z.lor (Z.lor (Z.shiftr (Z.land x 0xff000000) 24)
                      (Z.shiftr (Z.land x 0x00ff0000) 8))
               (wrap32 (Z.shiftl (Z.land x 0x0000ff00) 8)))
        (wrap32 (Z.shiftl (Z.land x 0x000000ff) 24)).

(** ** Memory views on a little-endian host

    [main] reads the [uint32_t] array [rand_data] through an
    [unsigned char *] and the byte array [rsa_output] through a
    [uint32_t *]; both casts are modelled for a little-endian host, the
    only kind on which the program's byte offsets mean what its comments
    say.  A byte is an integer in [0, 256). *)

Fixpoint le_combine (bs : list Z) : Z :=
  match bs with
  | [] => 0
  | b :: bs' => b + 256 * le_combine bs'
  end.

Fixpoint le_split (n : nat) (x : Z) : list Z :=
  match n with
  | O => []
  | S n' => x mod 256 :: le_split n' (x / 256)
  end.

(** The bytes of a [uint32_t] array. *)
Definition bytes_of_words (ws : list Z) : list Z := ws ≫= le_split 4.

(** [((uint32_t * ) buf)[i]] and the 8-byte analogue. *)
Definition load32 (buf : list Z) (i : nat) : Z :=
  le_combine (take 4 (drop (4 * i) buf)).
Definition load64 (buf : list Z) (i : nat) : Z :=
  le_combine (take 8 (drop (8 * i) buf)).

Definition words_of_bytes (n : nat) (buf : list Z) : list Z :=
  load32 buf <$> seq 0 n.

(** ** The OpenSSL calls of [main], by their documented results *)

Definition hex_digit (c : ascii) : option Z :=
  let n := Z.of_N (N_of_ascii c) in
  if (48 <=? n) && (n <=? 57) then Some (n - 48)
  else if (97 <=? n) && (n <=? 102) then Some (n - 87)
  else if (65 <=? n) && (n <=? 70) then Some (n - 55)
  else None.

Definition dec_digit (c : ascii) : option Z :=
  let n := Z.of_N (N_of_ascii c) in
  if (48 <=? n) && (n <=? 57) then Some (n - 48) else None.

Fixpoint digits2bn (digit : ascii -> option Z) (base acc : Z) (s : string)
  : Z :=
  match s with
  | EmptyString => acc
  | String c s' =>
      match digit c with
      | Some d => digits2bn digit base (base * acc + d) s'
      | None => acc
      end
  end.

Definition BN_hex2bn (s : string) : Z := digits2bn hex_digit 16 0 s.
Definition BN_dec2bn (s : string) : Z := digits2bn dec_digit 10 0 s.

(** [BN_lebin2bn (s, len, NULL)]: the number whose little-endian bytes are
    the first [len] bytes of [s]. *)
Definition BN_lebin2bn (s : list Z) (len : nat) : Z := le_combine (take len s).

(** [BN_mod_exp (r, a, p, m, ctx)]: [r = a ^ p mod m] ([Zpow_mod] is the
    Standard Library's square-and-multiply, equal to [a ^ p mod m]). *)
Definition BN_mod_exp (a p m : Z) : Z := Zpow_mod a p m.

(** [BN_bn2lebinpad (a, to, tolen)]: the [tolen] little-endian bytes of [a],
    zero-padded.  OpenSSL refuses a number that does not fit; [main] never
    passes one, its argument being a residue modulo [n]. *)
Definition BN_bn2lebinpad (a : Z) (tolen : nat) : list Z := le_split tolen a.

(** ** main (lines 166-234) *)

(** RSA public key 0x136 (lines 171-175). *)
Definition n : Z := Eval vm_compute in
  BN_hex2bn "de5a5615fdda3b76b4ecd8754228885e7bf11fdd6c8c18ac24230f7f770006cfe60465384e6a5ab4daa3009abc65bff2abb1da1428ce7a925366a14833dcd18183bad61b2c66f0d8b9c4c90bf27fe9d1c55bf2830306a13d4559df60783f5809547ffd364dbccea7a7c2fc32a0357ceba3e932abcac6bd6398894a1a22f63bdc45b5da8b3c4e80f8c097ca7ffd18ff6c78c81e94c016c080ee6c5322e1aeb59d2123dce1e4dd20d0f1cdb017326b4fd813c060e8d2acd62e703341784dca667632233de57db820f149964b3f4f0c785c39e2534a7ae36fd115b9f06457822f8a9b7ce7533777a4fb03610d6b4018ab332be4e7ad2f4ac193040e5a037417bc53".
Definition e : Z := Eval vm_compute in BN_dec2bn "65537".

Definition EXIT_SUCCESS : Z := 0.

(** The value stored in [rand_data[63]] (line 196). *)
Definition last_word (w : Z) : Z :=
  bswap32 (wrap32 (bswap32 (Z.land w 0xFFFF) + 0x0200)).

(** The [for] loop of lines 191-202, [k] rounds from index [j]. *)
Fixpoint fill (k : nat) (j : nat) (rand_data : list Z) (mt : MT)
  : option (list Z * MT) :=
  match k with
  | O => Some (rand_data, mt)
  | S k' =>
      '(w, mt) ← randomMT mt;
      let v := if (j =? 63)%nat then last_word w else w in
      fill k' (S j) (<[j := v]> rand_data) mt
  end.

(** Lines 180-204: reset, seed, fill, clear byte 245.  The result is the
    memory of [rand_data] as bytes. *)
Definition build (current_seed : Z) (mt : MT) : option (list Z * MT) :=
  let mt := {| state := state mt; next := next mt; left := -1 |} in
  let mt := seedMT current_seed mt in
  '(rand_data, mt) ← fill 64 0 (replicate 64 0) mt;
  Some (<[245%nat := 0]> (bytes_of_words rand_data), mt).

(** Lines 206-211. *)
Definition encrypt (rand_data_bytes : list Z) : list Z :=
  let data_num := BN_lebin2bn rand_data_bytes 256 in
  let out := BN_mod_exp data_num e n in
  BN_bn2lebinpad out 256.

(** What the [printf] calls of lines 217-229 show. *)
Record report : Type := mkReport {
  found_seed : Z;
  key_data : list Z;
  seed_data : list Z
}.

(** The variables of [main] that live across rounds of the [while] loop,
    the engine, and the text printed so far. *)
Record loop : Type := mkLoop {
  seed : Z;
  done : bool;
  engine : MT;
  stdout : list report
}.

(** One round of the [while] loop with target [match_]. *)
Definition iteration (match_ : Z) (l : loop) : option loop :=
  let current_seed := seed l in
  let seed' := wrap32 (seed l + 2) in
  '(rand_data_bytes, mt) ← build current_seed (engine l);
  let rsa_output := encrypt rand_data_bytes in
  if load32 rsa_output 0 =? match_ then
    Some {| seed := seed'; done := true; engine := mt;
            stdout := stdout l ++
              [ {| found_seed := current_seed;
                   key_data := words_of_bytes 64 rand_data_bytes;
                   seed_data := words_of_bytes 64 rsa_output |} ] |}
  else
    Some {| seed := seed'; done := false; engine := mt; stdout := stdout l |}.

(** How a run of [main] bounded to [fuel] rounds ends. *)
Inductive outcome : Type :=
  | Exited (status : Z) (l : loop)
  | Running (l : loop)
  | Undefined.

Fixpoint run (fuel : nat) (match_ : Z) (l : loop) : outcome :=
  if done l then Exited EXIT_SUCCESS l
  else
    match fuel with
    | O => Running l
    | S fuel' =>
        match iteration match_ l with
        | Some l' => run fuel' match_ l'
        | None => Undefined
        end
    end.

(** [main] after its arguments are parsed. *)
Definition start (seed0 : Z) : loop :=
  {| seed := seed0; done := false; engine := fresh; stdout := [] |}.

Definition main (fuel : nat) (seed0 match_ : Z) : outcome :=
  run fuel match_ (start seed0).

(** ** The report as text (lines 217-229) *)

(** [%08X] of a [uint32_t]: eight upper-case hexadecimal digits. *)
Definition hex_char (d : Z) : ascii :=
  ascii_of_N (Z.to_N (if d <? 10 then 48 + d else 55 + d)).

Fixpoint hex_digits (k : nat) (w : Z) (acc : string) : string :=
  match k with
  | O => acc
  | S k' => hex_digits k' (w / 16) (String (hex_char (w mod 16)) acc)
  end.

Definition fmt_08X (w : Z) : string := hex_digits 8 w EmptyString.

Definition newline : string := String (ascii_of_N 10) EmptyString.

(** The loops of lines 220-223 and 225-228, from index [j]:
    [printf (" %08X%s", words[j], (j % 4) == 4 ? " " : "")]. *)
Fixpoint print_words (j : nat) (words : list Z) : string :=
  match words with
  | [] => EmptyString
  | w :: words' =>
      (" " ++ fmt_08X w ++ (if (Z.of_nat j mod 4 =? 4)%Z then " " else ""))
      ++ print_words (S j) words'
  end%string.

Definition render (r : report) : string :=
  ("**** FOUND ****" ++ newline ++
   "Seed: " ++ fmt_08X (found_seed r) ++ newline ++
   newline ++ "Key Data: " ++ newline ++
   print_words 0 (key_data r) ++
   newline ++ "Seed Data: " ++ newline ++
   print_words 0 (seed_data r) ++
   newline)%string.

(** * Vocabulary of the properties *)

(** ** The engine as a C object and as the program reaches it *)

(** [uint32_t state[N + 1]]: [N + 1] words of 32 bits. *)
Definition MT_ok (mt : MT) : Prop :=
  length (state mt) = S N /\ Forall u32 (state mt).

(** The countdown and the cursor move together: while words of the batch
    remain, [next] points [left] words before the end of the batch. *)
Definition cursor_ok (mt : MT) : Prop :=
  -1 <= left mt <= 623 /\
  (1 <= left mt -> next mt = Some (Z.to_nat (624 - left mt))).

(** The engines the program can reach: the initial one, and what the three
    functions and the reset of line 180 make of a reachable one. *)
Inductive reachable : MT -> Prop :=
  | reach_fresh : reachable fresh
  | reach_seedMT seed mt : reachable mt -> reachable (seedMT seed mt)
  | reach_reloadMT mt : reachable mt -> reachable (snd (reloadMT mt))
  | reach_randomMT mt w mt' :
      reachable mt -> randomMT mt = Some (w, mt') -> reachable mt'
  | reach_reset mt :
      reachable mt ->
      reachable {| state := state mt; next := next mt; left := -1 |}.

(** The words the seeding loop writes: [k] steps of Knuth's generator
    [x_new = 69069 * x_old mod 2^32] after [x]. *)
Fixpoint lcg (k : nat) (x : Z) : list Z :=
  match k with
  | O => []
  | S k' => let x' := wrap32 (x * 69069) in x' :: lcg k' x'
  end.

(** ** Engines that agree on the first [N] words *)

Definition same_words (st1 st2 : list Z) : Prop :=
  length st1 = S N /\ length st2 = S N /\ take N st1 = take N st2.

(** Two runs of a [reloadMT] loop with [k] rounds to go. *)
Definition regs_rel (k : nat) (r1 r2 : regs) : Prop :=
  p0 r1 = p0 r2 /\ p2 r1 = p2 r2 /\ pM r1 = pM r2 /\ s0 r1 = s0 r2 /\
  ((p2 r1 <= N)%nat -> s1 r1 = s1 r2) /\
  same_words (mem r1) (mem r2) /\
  (p0 r1 + k <= N)%nat /\ (pM r1 + k <= N)%nat /\ (p2 r1 + k <= S N)%nat.

Definition eqv (mt1 mt2 : MT) : Prop :=
  same_words (state mt1) (state mt2) /\
  left mt1 = left mt2 /\
  (1 <= left mt1 -> next mt1 = next mt2).

(** ** The candidate buffer *)

(** The [j]-th byte of a word. *)
Definition byte_of (j x : Z) : Z := (x / 2 ^ (8 * j)) mod 2 ^ 8.

(** What the fill loop stores for the engine values [ws], from index [j]. *)
Fixpoint store_words (j : nat) (ws : list Z) (rand_data : list Z) : list Z :=
  match ws with
  | [] => rand_data
  | w :: ws' =>
      store_words (S j) ws'
        (<[j := if (j =? 63)%nat then last_word w else w]> rand_data)
  end.

(** [rand_data] after the fill loop and its bytes after line 204, from the
    64 engine values [ws]. *)
Definition rand_data_of (ws : list Z) : list Z :=
  take 63 ws ++ [last_word (ws !!! 63%nat)].
Definition candidate_of (ws : list Z) : list Z :=
  <[245%nat := 0]> (bytes_of_words (rand_data_of ws)).

(** The values the engine returns to the 64 [randomMT] calls of one trial,
    and the bytes of [rand_data] when line 206 reads them. *)
Definition outputs (seed : Z) (mt : MT) : option (list Z) :=
  fst <$> draw 64 (seedMT seed mt).
Definition candidate (seed : Z) (mt : MT) : option (list Z) :=
  fst <$> build seed mt.

(** The [j]-th 4-byte group of a buffer. *)
Definition group (buf : list Z) (j : nat) : list Z :=
  take 4 (drop (4 * j) buf).

(** The last word as the sentence of C3 has it: mask, add [0x0200] to the
    masked value, reverse the bytes of the sum. *)
Definition claimed_last_word (w : Z) : Z :=
  bswap32 (wrap32 (Z.land w 0xFFFF + 0x0200)).

(** ** The search loop *)

(** The bytes [rsa_output] of the trial of [seed], and whether line 214
    finds the target in them. *)
Definition trial (seed : Z) : option (list Z) :=
  encrypt <$> candidate seed fresh.

Definition hit (match_ seed : Z) : bool :=
  match trial seed with
  | Some rsa_output => load32 rsa_output 0 =? match_
  | None => false
  end.

(** The seed of the [k]-th round of a run started at [seed0]. *)
Definition seed_at (seed0 : Z) (k : nat) : Z := wrap32 (seed0 + 2 * Z.of_nat k).

(** ** Evaluating the oracle

    [BN_mod_exp] with the exponent 65537 is sixteen squarings and one
    multiplication modulo the modulus; the same on machine-word integers
    evaluates a trial in the time of a blink. *)

Fixpoint square_mod (k : nat) (x m : Z) : Z :=
  match k with
  | O => x
  | S k' => square_mod k' ((x * x) mod m) m
  end.

Fixpoint big_square_mod (k : nat) (x m : bigZ) : bigZ :=
  match k with
  | O => x
  | S k' => big_square_mod k' (BigZ.modulo (BigZ.mul x x) m) m
  end.

Definition big_mod_exp (a m : bigZ) : bigZ :=
  BigZ.modulo (BigZ.mul (big_square_mod 16 (BigZ.modulo a m) m) a) m.

(** The first trial of a run started at seed 1, evaluated. *)
Definition outputs_seed1 : list Z :=
  Eval vm_compute in default [] (outputs 1 fresh).
Definition candidate_seed1 : list Z :=
  Eval vm_compute in default [] (candidate 1 fresh).
Definition rsa_output_seed1 : list Z :=
  Eval vm_compute in default [] (trial 1).

(** ** The twist, word by word *)

(** [st'] is the batch regenerated from [st]: each of the first [N - M]
    words mixes the old word [M] places ahead, each later word the new word
    [N - M] places back, the last one wraps to the new first word; the spare
    word is kept. *)
Definition twisted (st st' : list Z) : Prop :=
  length st' = length st /\
  (forall i, (i < N - M)%nat ->
     st' !!! i = twist (st !!! (i + M)%nat) (st !!! i) (st !!! S i)) /\
  (forall i, (N - M <= i < N - 1)%nat ->
     st' !!! i = twist (st' !!! (i - (N - M))%nat) (st !!! i) (st !!! S i)) /\
  st' !!! (N - 1)%nat
    = twist (st' !!! (M - 1)%nat) (st !!! (N - 1)%nat) (st' !!! 0%nat) /\
  st' !!! N = st !!! N.

(** The registers of [reloadMT] after [t] rounds on [st]. *)
Definition twist_inv (st : list Z) (t : nat) (r : regs) : Prop :=
  p0 r = t /\ p2 r = (t + 2)%nat /\
  s0 r = st !!! t /\ s1 r = st !!! S t /\
  length (mem r) = length st /\
  (forall i, (i < t)%nat -> (i < N - M)%nat ->
     mem r !!! i = twist (st !!! (i + M)%nat) (st !!! i) (st !!! S i)) /\
  (forall i, (N - M <= i < t)%nat ->
     mem r !!! i = twist (mem r !!! (i - (N - M))%nat) (st !!! i) (st !!! S i)) /\
  (forall i, (t <= i)%nat -> mem r !!! i = st !!! i).

(** ** The accesses of a [reloadMT] round *)

(** A round reads [*pM] and [*p2] and writes [*p0]: the three pointers
    must point into the array. *)
Definition round_in_bounds (r : regs) : Prop :=
  (p0 r < length (mem r))%nat /\ (pM r < length (mem r))%nat /\
  (p2 r < length (mem r))%nat.

(** ** Words as one number *)

(** The number whose base-[2^32] digits, lowest first, are [ws]. *)
Fixpoint words_value (ws : list Z) : Z :=
  match ws with
  | [] => 0
  | w :: ws' => w + 2 ^ 32 * words_value ws'
  end.

(** * Properties *)

(** ** Unsigned 32-bit values are closed under the bit operations *)

Lemma u32_iff (x : Z) :
  u32 x <-> 0 <= x /\ forall i, 32 <= i -> Z.testbit x i = false.
Proof.
  unfold u32; split.
  - intros [Hlo Hhi]; split; [exact Hlo|]. intros i Hi.
    destruct (Z.eq_dec x 0) as [->|Hx]; [apply Z.bits_0|].
    apply Z.bits_above_log2; [exact Hlo|].
    assert (Z.log2 x < 32) by (apply Z.log2_lt_pow2; lia). lia.
  - intros [Hlo Hbits].
    assert (x = x mod 2 ^ 32) as ->.
    { apply Z.bits_inj'. intros i Hi.
      destruct (Z_lt_le_dec i 32).
      - rewrite Z.mod_pow2_bits_low by lia. reflexivity.
      - rewrite Z.mod_pow2_bits_high by lia. apply Hbits; lia. }
    apply Z.mod_pos_bound. lia.
Qed.

Lemma u32_wrap32 (x : Z) : u32 (wrap32 x).
Proof. unfold u32, wrap32. apply Z.mod_pos_bound. lia. Qed.

Lemma wrap32_u32 (x : Z) : u32 x -> wrap32 x = x.
Proof. unfold u32, wrap32. intros. apply Z.mod_small. lia. Qed.

Lemma u32_lxor (a b : Z) : u32 a -> u32 b -> u32 (Z.lxor a b).
Proof.
  rewrite !u32_iff. intros [Ha Ha'] [Hb Hb']. split.
  - apply Z.lxor_nonneg. tauto.
  - intros i Hi. rewrite Z.lxor_spec, Ha', Hb' by lia. reflexivity.
Qed.

Lemma u32_lor (a b : Z) : u32 a -> u32 b -> u32 (Z.lor a b).
Proof.
  rewrite !u32_iff. intros [Ha Ha'] [Hb Hb']. split.
  - apply Z.lor_nonneg. tauto.
  - intros i Hi. rewrite Z.lor_spec, Ha', Hb' by lia. reflexivity.
Qed.

Lemma u32_land_r (a b : Z) : u32 b -> u32 (Z.land a b).
Proof.
  rewrite !u32_iff. intros [Hb Hb']. split.
  - apply Z.land_nonneg. tauto.
  - intros i Hi. rewrite Z.land_spec, Hb' by lia. apply andb_false_r.
Qed.

Lemma u32_land_l (a b : Z) : u32 a -> u32 (Z.land a b).
Proof. rewrite Z.land_comm. apply u32_land_r. Qed.

Lemma u32_shiftr (a k : Z) : 0 <= k -> u32 a -> u32 (Z.shiftr a k).
Proof.
  rewrite !u32_iff. intros Hk [Ha Ha']. split.
  - apply Z.shiftr_nonneg. exact Ha.
  - intros i Hi. rewrite Z.shiftr_spec by lia. apply Ha'. lia.
Qed.

Lemma land_ones32 (x : Z) : Z.land x 0xFFFFFFFF = wrap32 x.
Proof. change 0xFFFFFFFF with (Z.ones 32). apply Z.land_ones. lia. Qed.

Lemma u32_K : u32 K.
Proof. unfold u32, K. lia. Qed.

Lemma u32_0 : u32 0.
Proof. unfold u32. lia. Qed.

Create HintDb u32 discriminated.
#[local] Hint Resolve u32_wrap32 u32_lxor u32_lor u32_land_r u32_shiftr
  u32_K u32_0 : u32.

Lemma u32_mixBits (u v : Z) : u32 (mixBits u v).
Proof.
  unfold mixBits, hiBit, loBits.
  apply u32_lor; apply u32_land_r; unfold u32; lia.
Qed.

Lemma u32_twist (m a b : Z) : u32 m -> u32 (twist m a b).
Proof.
  intros Hm. unfold twist.
  apply u32_lxor; [apply u32_lxor; [exact Hm|]|].
  - apply u32_shiftr; [lia|apply u32_mixBits].
  - destruct (loBit b =? 0); auto with u32.
Qed.

Lemma u32_temper (y : Z) : u32 y -> u32 (temper y).
Proof.
  intros Hy. unfold temper.
  assert (forall a k, u32 a -> 0 <= k -> u32 (Z.lxor a (Z.shiftr a k)))
    as Hr by (intros; auto with u32).
  assert (forall a k c, u32 a -> u32 c ->
            u32 (Z.lxor a (Z.land (wrap32 (Z.shiftl a k)) c)))
    as Hl by (intros; auto with u32).
  apply Hr; [|lia]. apply Hl; [|unfold u32; lia].
  apply Hl; [|unfold u32; lia]. apply Hr; [exact Hy|lia].
Qed.

Lemma u32_bswap32 (x : Z) : u32 (bswap32 x).
Proof.
  unfold bswap32.
  repeat apply u32_lor; auto with u32;
    (apply u32_shiftr; [lia|]); apply u32_land_r; unfold u32; lia.
Qed.

(** A word read from a [uint32_t] array is a [uint32_t], also the default
    of the total lookup. *)
Lemma u32_lookup_total (l : list Z) (i : nat) :
  Forall u32 l -> u32 (l !!! i).
Proof.
  intros Hl. rewrite list_lookup_total_alt.
  destruct (l !! i) as [x|] eqn:Hx; simpl.
  - eapply Forall_lookup_1; eauto.
  - unfold u32; cbn; lia.
Qed.

(** ** The engine as a C object: [N + 1] words of 32 bits *)

Lemma MT_ok_fresh : MT_ok fresh.
Proof.
  split; [reflexivity|]. unfold fresh; cbn [state].
  apply Forall_replicate. apply u32_0.
Qed.

(** ** seedMT *)

Lemma seedMT_loop_length (j s : nat) (x : Z) (st : list Z) :
  length (seedMT_loop j s x st) = length st.
Proof.
  revert s x st. induction j as [|j IH]; intros s x st; [reflexivity|].
  destruct j as [|j]; [reflexivity|].
  change (length (seedMT_loop (S j) (S s) (wrap32 (x * 69069))
            (<[s := Z.land (wrap32 (x * 69069)) 0xFFFFFFFF]> st)) = length st).
  rewrite IH, length_insert. reflexivity.
Qed.

Lemma seedMT_loop_u32 (j s : nat) (x : Z) (st : list Z) :
  Forall u32 st -> Forall u32 (seedMT_loop j s x st).
Proof.
  revert s x st. induction j as [|j IH]; intros s x st Hst; [exact Hst|].
  destruct j as [|j]; [exact Hst|].
  change (Forall u32 (seedMT_loop (S j) (S s) (wrap32 (x * 69069))
            (<[s := Z.land (wrap32 (x * 69069)) 0xFFFFFFFF]> st))).
  apply IH. apply Forall_insert; [exact Hst|]. apply u32_land_l, u32_wrap32.
Qed.

Lemma seedMT_ok (seed : Z) (mt : MT) : MT_ok mt -> MT_ok (seedMT seed mt).
Proof.
  intros [Hlen Hall]. unfold MT_ok, seedMT; cbn [state]. split.
  - rewrite seedMT_loop_length, length_insert. exact Hlen.
  - apply seedMT_loop_u32, Forall_insert; [exact Hall|].
    apply u32_land_r. unfold u32; lia.
Qed.

Lemma lcg_length (k : nat) (x : Z) : length (lcg k x) = k.
Proof.
  revert x. induction k as [|k IH]; intros x; simpl; [|rewrite IH];
    reflexivity.
Qed.

Lemma seedMT_loop_closed (j s : nat) (x : Z) (st : list Z) :
  (s + (j - 1) <= length st)%nat ->
  seedMT_loop j s x st = take s st ++ lcg (j - 1) x ++ drop (s + (j - 1)) st.
Proof.
  revert s x st. induction j as [|j IH]; intros s x st Hlen.
  - simpl. rewrite Nat.add_0_r, take_drop. reflexivity.
  - destruct j as [|j].
    + simpl. rewrite Nat.add_0_r, take_drop. reflexivity.
    + change (seedMT_loop (S (S j)) s x st)
        with (seedMT_loop (S j) (S s) (wrap32 (x * 69069))
                (<[s := Z.land (wrap32 (x * 69069)) 0xFFFFFFFF]> st)).
      rewrite land_ones32, (wrap32_u32 (wrap32 _)) by apply u32_wrap32.
      rewrite IH by (rewrite length_insert; lia).
      replace (S (S j) - 1)%nat with (S j) by lia.
      replace (S j - 1)%nat with j in * by lia.
      rewrite take_insert_lt by lia.
      rewrite drop_insert_lt by lia.
      assert (Hs : (s < length st)%nat) by lia.
      destruct (lookup_lt_is_Some_2 st s Hs) as [y Hy].
      rewrite (take_S_r _ _ _ Hy).
      rewrite insert_app_r_alt by (rewrite length_take; lia).
      rewrite length_take_le by lia. rewrite Nat.sub_diag. simpl.
      rewrite <- app_assoc. simpl.
      replace (S (s + j)) with (s + S j)%nat by lia. reflexivity.
Qed.

(** The state vector after [seedMT]: the seed with its low bit forced, 623
    steps of the generator, and the spare word as it was. *)
Lemma seedMT_state (seed : Z) (mt : MT) :
  length (state mt) = S N ->
  state (seedMT seed mt) =
    let x := Z.land (Z.lor seed 1) 0xFFFFFFFF in
    x :: lcg (N - 1) x ++ drop N (state mt).
Proof.
  intros Hlen. unfold seedMT; cbn [state].
  rewrite seedMT_loop_closed by (rewrite length_insert, Hlen; unfold N; lia).
  destruct (state mt) as [|w st]; [discriminate|].
  cbn zeta. change (<[0%nat := ?v]> (w :: st)) with (v :: st).
  reflexivity.
Qed.

Lemma lcg_chain (k : nat) (x : Z) (tl : list Z) (i : nat) :
  (1 <= i <= k)%nat ->
  (x :: lcg k x ++ tl) !! i =
    Some (wrap32 (69069 * ((x :: lcg k x ++ tl) !!! (i - 1)%nat))).
Proof.
  revert x i. induction k as [|k IH]; intros x i Hi; [lia|].
  destruct i as [|i]; [lia|].
  destruct i as [|i].
  - simpl. rewrite Z.mul_comm. reflexivity.
  - change ((x :: lcg (S k) x ++ tl) !! S (S i))
      with ((wrap32 (x * 69069) :: lcg k (wrap32 (x * 69069)) ++ tl) !! S i).
    rewrite IH by lia.
    replace (S (S i) - 1)%nat with (S i) by lia.
    replace (S i - 1)%nat with i by lia.
    reflexivity.
Qed.

Lemma testbit_1_succ (j : Z) : 0 <= j -> Z.testbit 1 (Z.succ j) = false.
Proof.
  intros Hj. change 1 with (2 * 0 + 1).
  rewrite Z.testbit_odd_succ by lia. apply Z.bits_0.
Qed.

Lemma lor_1_even (k : Z) : Z.lor (2 * k) 1 = 2 * k + 1.
Proof.
  apply Z.bits_inj'. intros i Hi. rewrite Z.lor_spec.
  destruct (Z.eq_dec i 0) as [->|Hne].
  - rewrite Z.testbit_even_0, Z.testbit_odd_0. reflexivity.
  - replace i with (Z.succ (i - 1)) by lia.
    rewrite Z.testbit_even_succ, Z.testbit_odd_succ by lia.
    rewrite testbit_1_succ by lia. apply orb_false_r.
Qed.

Lemma lor_1_odd (k : Z) : Z.lor (2 * k + 1) 1 = 2 * k + 1.
Proof.
  apply Z.bits_inj'. intros i Hi. rewrite Z.lor_spec.
  destruct (Z.eq_dec i 0) as [->|Hne].
  - rewrite Z.testbit_odd_0. reflexivity.
  - replace i with (Z.succ (i - 1)) by lia.
    rewrite testbit_1_succ by lia. apply orb_false_r.
Qed.

Lemma wrap32_double (k : Z) : wrap32 (2 * k) = 2 * (k mod 2 ^ 31).
Proof.
  unfold wrap32. change (2 ^ 32) with (2 * 2 ^ 31).
  rewrite Z.mul_mod_distr_l by lia. reflexivity.
Qed.

Lemma wrap32_double_succ (k : Z) : wrap32 (2 * k + 1) = 2 * (k mod 2 ^ 31) + 1.
Proof.
  unfold wrap32. change (2 ^ 32) with (2 * 2 ^ 31).
  pose proof (Z.mod_pos_bound k (2 ^ 31) ltac:(lia)).
  pose proof (Z.div_mod k (2 ^ 31) ltac:(lia)).
  symmetry. apply Z.mod_unique_pos with (q := k / 2 ^ 31); lia.
Qed.

(** ** reloadMT *)

Arguments seedMT_loop : simpl never.
Arguments reload_loop : simpl never.

Lemma reload_loop_S (j : nat) (r : regs) :
  reload_loop (S (S j)) r = reload_loop (S j) (reload_round r).
Proof. reflexivity. Qed.

(** Loop invariants indexed by the number of rounds still to run. *)
Lemma reload_loop_inv (P : nat -> regs -> Prop) :
  (forall k r, P (S k) r -> P k (reload_round r)) ->
  forall j r, P (j - 1)%nat r -> P 0%nat (reload_loop j r).
Proof.
  intros Hstep j. induction j as [|j IH]; intros r H; [exact H|].
  destruct j as [|j]; [exact H|].
  rewrite reload_loop_S. apply IH.
  replace (S j - 1)%nat with j by lia. apply Hstep.
  replace (S (S j) - 1)%nat with (S j) in H by lia. exact H.
Qed.

(** The same for two runs side by side. *)
Lemma reload_loop_rel (R : nat -> regs -> regs -> Prop) :
  (forall k r1 r2, R (S k) r1 r2 -> R k (reload_round r1) (reload_round r2)) ->
  forall j r1 r2, R (j - 1)%nat r1 r2 ->
    R 0%nat (reload_loop j r1) (reload_loop j r2).
Proof.
  intros Hstep j. induction j as [|j IH]; intros r1 r2 H; [exact H|].
  destruct j as [|j]; [exact H|].
  rewrite !reload_loop_S. apply IH.
  replace (S j - 1)%nat with j by lia. apply Hstep.
  replace (S (S j) - 1)%nat with (S j) in H by lia. exact H.
Qed.

(** The three pointers advance once per round. *)
Lemma reload_loop_pointers (j : nat) (r : regs) :
  p0 (reload_loop j r) = (p0 r + (j - 1))%nat /\
  p2 (reload_loop j r) = (p2 r + (j - 1))%nat /\
  pM (reload_loop j r) = (pM r + (j - 1))%nat.
Proof.
  pose proof (reload_loop_inv (fun k r' =>
    (p0 r' + k = p0 r + (j - 1) /\ p2 r' + k = p2 r + (j - 1) /\
     pM r' + k = pM r + (j - 1))%nat)) as H.
  specialize (H ltac:(intros k r'; unfold reload_round; cbn [p0 p2 pM]; lia)
                j r ltac:(cbv beta; lia)).
  cbv beta in H. lia.
Qed.

Lemma reload_round_ok (r : regs) :
  Forall u32 (mem r) -> Forall u32 (mem (reload_round r)).
Proof.
  intros Hall. unfold reload_round; cbn [mem].
  apply Forall_insert; [exact Hall|].
  apply u32_twist, u32_lookup_total, Hall.
Qed.

Lemma reload_loop_ok (j : nat) (r : regs) :
  length (mem r) = S N -> Forall u32 (mem r) ->
  length (mem (reload_loop j r)) = S N /\ Forall u32 (mem (reload_loop j r)).
Proof.
  intros Hlen Hall.
  apply (reload_loop_inv (fun _ r' =>
    length (mem r') = S N /\ Forall u32 (mem r'))); [|tauto].
  intros _ r' [Hl Ha]. split; [|apply reload_round_ok, Ha].
  unfold reload_round; cbn [mem]. rewrite length_insert. exact Hl.
Qed.

Lemma regenerate_eq (st : list Z) :
  regenerate st =
    reload_last (reload_loop M (reload_wrap (reload_loop (N - M + 1)
      (reload_init st)))).
Proof. reflexivity. Qed.

Lemma reloadMT_eq (mt : MT) :
  reloadMT mt = regenerate (state (if left mt <? -1 then seedMT 1 mt else mt)).
Proof. reflexivity. Qed.

Lemma mem_reload_init (st : list Z) : mem (reload_init st) = st.
Proof. reflexivity. Qed.

Lemma mem_reload_wrap (r : regs) : mem (reload_wrap r) = mem r.
Proof. reflexivity. Qed.

Lemma reload_last_ok (r : regs) :
  length (mem r) = S N -> Forall u32 (mem r) ->
  u32 (fst (reload_last r)) /\ MT_ok (snd (reload_last r)).
Proof.
  intros Hlen Hall. unfold reload_last, MT_ok; cbn [fst snd state].
  split; [|split].
  - apply u32_temper, u32_lookup_total, Hall.
  - rewrite length_insert. exact Hlen.
  - apply Forall_insert; [exact Hall|].
    apply u32_twist, u32_lookup_total, Hall.
Qed.

Lemma regenerate_ok (st : list Z) :
  length st = S N -> Forall u32 st ->
  u32 (fst (regenerate st)) /\ MT_ok (snd (regenerate st)).
Proof.
  intros Hlen Hall. rewrite regenerate_eq.
  pose proof (reload_loop_ok (N - M + 1) (reload_init st) Hlen Hall) as H1.
  revert H1. generalize (reload_loop (N - M + 1) (reload_init st)).
  intros r1 [Hlen1 Hall1].
  pose proof (reload_loop_ok M (reload_wrap r1) Hlen1 Hall1) as H2.
  revert H2. generalize (reload_loop M (reload_wrap r1)).
  intros r2 [Hlen2 Hall2].
  apply reload_last_ok; assumption.
Qed.

Lemma regenerate_cursor (st : list Z) :
  left (snd (regenerate st)) = 623 /\ next (snd (regenerate st)) = Some 1%nat.
Proof. rewrite regenerate_eq. split; reflexivity. Qed.

Lemma reloadMT_ok (mt : MT) :
  MT_ok mt ->
  u32 (fst (reloadMT mt)) /\ MT_ok (snd (reloadMT mt)).
Proof.
  intros Hok. rewrite reloadMT_eq.
  assert (Hok0 : MT_ok (if left mt <? -1 then seedMT 1 mt else mt))
    by (destruct (left mt <? -1); [apply seedMT_ok|]; exact Hok).
  destruct Hok0. apply regenerate_ok; assumption.
Qed.

Lemma reloadMT_cursor (mt : MT) :
  left (snd (reloadMT mt)) = 623 /\ next (snd (reloadMT mt)) = Some 1%nat.
Proof. rewrite reloadMT_eq. apply regenerate_cursor. Qed.

(** ** randomMT *)

Lemma cursor_ok_left0 (st : list Z) (nx : option nat) (l : Z) :
  -1 <= l <= 0 -> cursor_ok {| state := st; next := nx; left := l |}.
Proof. intros Hl. split; cbn [left next]; lia. Qed.

Lemma randomMT_reload (mt : MT) :
  left mt - 1 < 0 ->
  randomMT mt =
    Some (reloadMT
            {| state := state mt; next := next mt; left := left mt - 1 |}).
Proof.
  intros Hl. unfold randomMT. cbv zeta.
  destruct (Z.ltb_spec (left mt - 1) 0) as [_|Hge]; [reflexivity|lia].
Qed.

Lemma randomMT_read (mt : MT) (i : nat) (y : Z) :
  0 <= left mt - 1 -> next mt = Some i -> state mt !! i = Some y ->
  randomMT mt =
    Some (temper y,
          {| state := state mt; next := Some (S i); left := left mt - 1 |}).
Proof.
  intros Hl Hn Hy. unfold randomMT. cbv zeta.
  destruct (Z.ltb_spec (left mt - 1) 0) as [Hlt|_]; [lia|].
  rewrite Hn; cbn. rewrite Hy; cbn. reflexivity.
Qed.

Lemma randomMT_total (mt : MT) :
  MT_ok mt -> cursor_ok mt ->
  exists w mt', randomMT mt = Some (w, mt') /\
    u32 w /\ MT_ok mt' /\ cursor_ok mt' /\ 0 <= left mt'.
Proof.
  intros [Hlen Hall] [Hrange Hcur].
  destruct (Z_lt_le_dec (left mt - 1) 0) as [Hlt|Hge].
  - rewrite randomMT_reload by exact Hlt.
    set (mt0 := {| state := state mt; next := next mt; left := left mt - 1 |}).
    assert (Hok0 : MT_ok mt0) by (split; assumption).
    destruct (reloadMT_ok mt0 Hok0) as [Hw Hok'].
    destruct (reloadMT_cursor mt0) as [Hl' Hn'].
    exists (fst (reloadMT mt0)), (snd (reloadMT mt0)).
    split; [destruct (reloadMT mt0); reflexivity|].
    split; [exact Hw|]. split; [exact Hok'|].
    split; [|lia]. split; [lia|]. intros _. rewrite Hn', Hl'. reflexivity.
  - specialize (Hcur ltac:(lia)).
    assert (Hi : (Z.to_nat (624 - left mt) < length (state mt))%nat)
      by (rewrite Hlen; unfold N; lia).
    destruct (lookup_lt_is_Some_2 _ _ Hi) as [y Hy].
    rewrite (randomMT_read mt _ y Hge Hcur Hy).
    eexists _, _. split; [reflexivity|].
    split; [apply u32_temper; eapply Forall_lookup_1; eauto|].
    split; [split; assumption|].
    split; [|cbn [left]; lia].
    split; cbn [left next]; [lia|]. intros Hl. f_equal. lia.
Qed.

Lemma draw_total (k : nat) (mt : MT) :
  MT_ok mt -> cursor_ok mt ->
  exists ws mt', draw k mt = Some (ws, mt') /\
    length ws = k /\ Forall u32 ws /\ MT_ok mt' /\ cursor_ok mt'.
Proof.
  revert mt. induction k as [|k IH]; intros mt Hok Hcur.
  - exists [], mt. repeat split; try assumption; try apply Hok; try apply Hcur.
    constructor.
  - destruct (randomMT_total mt Hok Hcur)
      as (w & mt1 & Hr & Hw & Hok1 & Hcur1 & _).
    destruct (IH mt1 Hok1 Hcur1)
      as (ws & mt2 & Hd & Hlen & Hall & Hok2 & Hcur2).
    exists (w :: ws), mt2. cbn [draw]. rewrite Hr; cbn. rewrite Hd; cbn.
    repeat split; try apply Hok2; try apply Hcur2.
    + cbn. rewrite Hlen. reflexivity.
    + constructor; assumption.
Qed.

(** ** The spare word [state[N]] never matters

    Two engines whose first [N] words agree produce the same values. *)

Lemma same_words_lookup (st1 st2 : list Z) (i : nat) :
  same_words st1 st2 -> (i < N)%nat -> st1 !! i = st2 !! i.
Proof.
  intros (_ & _ & Htake) Hi.
  rewrite <- (lookup_take_lt st1 N i), <- (lookup_take_lt st2 N i) by exact Hi.
  rewrite Htake. reflexivity.
Qed.

Lemma same_words_lookup_total (st1 st2 : list Z) (i : nat) :
  same_words st1 st2 -> (i < N)%nat -> st1 !!! i = st2 !!! i.
Proof.
  intros H Hi. rewrite !list_lookup_total_alt.
  rewrite (same_words_lookup _ _ _ H Hi). reflexivity.
Qed.

Lemma same_words_insert (st1 st2 : list Z) (i : nat) (v : Z) :
  same_words st1 st2 -> same_words (<[i := v]> st1) (<[i := v]> st2).
Proof.
  intros (H1 & H2 & Htake). unfold same_words.
  rewrite !length_insert. split; [exact H1|]. split; [exact H2|].
  destruct (Nat.lt_ge_cases i N) as [Hlt|Hge].
  - rewrite !take_insert_lt by exact Hlt. rewrite Htake. reflexivity.
  - rewrite !take_insert_ge by exact Hge. exact Htake.
Qed.

Lemma same_words_refl (st : list Z) : length st = S N -> same_words st st.
Proof. intros H. repeat split; assumption. Qed.

Lemma reload_round_rel (k : nat) (r1 r2 : regs) :
  regs_rel (S k) r1 r2 -> regs_rel k (reload_round r1) (reload_round r2).
Proof.
  intros (E0 & E2 & EM & Es0 & Es1 & Hmem & B0 & BM & B2).
  specialize (Es1 ltac:(lia)).
  assert (Hv : twist (mem r1 !!! pM r1) (s0 r1) (s1 r1)
             = twist (mem r2 !!! pM r2) (s0 r2) (s1 r2)).
  { rewrite <- EM, <- Es0, <- Es1.
    rewrite (same_words_lookup_total _ _ (pM r1) Hmem) by lia. reflexivity. }
  unfold regs_rel, reload_round; cbn [p0 p2 pM s0 s1 mem].
  rewrite <- E0, <- E2, <- Hv.
  pose proof (same_words_insert _ _ (p0 r1)
                (twist (mem r1 !!! pM r1) (s0 r1) (s1 r1)) Hmem) as Hmem'.
  repeat split; try lia; try apply Hmem'; try congruence.
  intros Hp2. apply same_words_lookup_total; [exact Hmem'|lia].
Qed.

Lemma reload_loop_rel_words (j : nat) (r1 r2 : regs) :
  regs_rel (j - 1) r1 r2 -> regs_rel 0 (reload_loop j r1) (reload_loop j r2).
Proof. apply (reload_loop_rel regs_rel), reload_round_rel. Qed.

Lemma regs_rel_pointers (k : nat) (r1 r2 : regs) :
  regs_rel k r1 r2 -> p0 r1 = p0 r2 /\ p2 r1 = p2 r2 /\ pM r1 = pM r2.
Proof. unfold regs_rel. tauto. Qed.

Lemma reload_init_rel (st1 st2 : list Z) :
  same_words st1 st2 ->
  regs_rel (N - M + 1 - 1) (reload_init st1) (reload_init st2).
Proof.
  intros H. unfold regs_rel, reload_init; cbn [p0 p2 pM s0 s1 mem].
  rewrite !(same_words_lookup_total _ _ _ H) by (unfold N; lia).
  unfold N, M in *. repeat split; try lia; try apply H.
Qed.

Lemma reload_wrap_rel (r1 r2 : regs) :
  regs_rel 0 r1 r2 -> p0 r1 = 227%nat -> p2 r1 = 229%nat ->
  regs_rel (M - 1) (reload_wrap r1) (reload_wrap r2).
Proof.
  intros (E0 & E2 & EM & Es0 & Es1 & Hmem & _) H0 H2.
  unfold regs_rel, reload_wrap; cbn [p0 p2 pM s0 s1 mem].
  rewrite H0, H2. unfold N, M in *.
  repeat split; try lia; try apply Hmem; try congruence.
Qed.

Lemma reload_last_rel (r1 r2 : regs) :
  regs_rel 0 r1 r2 -> (pM r1 < N)%nat ->
  fst (reload_last r1) = fst (reload_last r2) /\
  eqv (snd (reload_last r1)) (snd (reload_last r2)).
Proof.
  intros (E0 & E2 & EM & Es0 & Es1 & Hmem & _) HM.
  unfold reload_last, eqv; cbn [fst snd state next left].
  rewrite <- E0, <- EM, <- Es0.
  rewrite !(same_words_lookup_total _ _ _ Hmem) by (unfold N in *; lia).
  split; [reflexivity|]. split; [|split; reflexivity].
  apply same_words_insert, Hmem.
Qed.

Lemma regenerate_rel (st1 st2 : list Z) :
  same_words st1 st2 ->
  fst (regenerate st1) = fst (regenerate st2) /\
  eqv (snd (regenerate st1)) (snd (regenerate st2)).
Proof.
  intros H. rewrite !regenerate_eq.
  pose proof (reload_loop_rel_words _ _ _ (reload_init_rel _ _ H)) as H1.
  pose proof (reload_loop_pointers (N - M + 1) (reload_init st1)) as P1.
  change (p0 (reload_init st1)) with 0%nat in P1.
  change (p2 (reload_init st1)) with 2%nat in P1.
  revert H1 P1.
  generalize (reload_loop (N - M + 1) (reload_init st1)).
  generalize (reload_loop (N - M + 1) (reload_init st2)).
  intros r2 r1 H1 (P0 & P2 & _).
  assert (P0' : p0 r1 = 227%nat) by (rewrite P0; reflexivity).
  assert (P2' : p2 r1 = 229%nat) by (rewrite P2; reflexivity).
  pose proof (reload_loop_rel_words _ _ _ (reload_wrap_rel _ _ H1 P0' P2'))
    as H2.
  pose proof (reload_loop_pointers M (reload_wrap r1)) as Q1.
  change (pM (reload_wrap r1)) with 0%nat in Q1.
  revert H2 Q1.
  generalize (reload_loop M (reload_wrap r1)).
  generalize (reload_loop M (reload_wrap r2)).
  intros r2' r1' H2 (_ & _ & QM).
  apply reload_last_rel; [exact H2|].
  rewrite QM. unfold N, M. lia.
Qed.

Arguments lcg : simpl never.

Lemma seedMT_state_length (seed : Z) (mt : MT) :
  length (state mt) = S N -> length (state (seedMT seed mt)) = S N.
Proof.
  intros H. unfold seedMT; cbn [state].
  rewrite seedMT_loop_length, length_insert. exact H.
Qed.

Lemma seedMT_same (seed : Z) (mt1 mt2 : MT) :
  length (state mt1) = S N -> length (state mt2) = S N ->
  same_words (state (seedMT seed mt1)) (state (seedMT seed mt2)).
Proof.
  intros H1 H2. unfold same_words.
  rewrite !seedMT_state_length by assumption.
  split; [reflexivity|]. split; [reflexivity|].
  rewrite !seedMT_state by assumption. cbv zeta.
  generalize (Z.land (Z.lor seed 1) 0xFFFFFFFF). intros x.
  rewrite !(app_comm_cons _ _ x).
  rewrite !take_app_length'; [reflexivity| |];
    cbn [length]; rewrite lcg_length; unfold N; lia.
Qed.

Lemma reloadMT_eqv (mt1 mt2 : MT) :
  same_words (state mt1) (state mt2) -> left mt1 = left mt2 ->
  fst (reloadMT mt1) = fst (reloadMT mt2) /\
  eqv (snd (reloadMT mt1)) (snd (reloadMT mt2)).
Proof.
  intros H Hl. rewrite !reloadMT_eq, <- Hl.
  destruct (left mt1 <? -1); apply regenerate_rel; [|exact H].
  apply seedMT_same; apply H.
Qed.

Lemma eqv_cursor_ok (mt1 mt2 : MT) :
  eqv mt1 mt2 -> cursor_ok mt1 -> cursor_ok mt2.
Proof.
  intros (_ & Hl & Hn) [Hr Hc]. unfold cursor_ok. rewrite <- Hl.
  split; [exact Hr|]. intros H1. rewrite <- Hn by exact H1. apply Hc, H1.
Qed.

Lemma randomMT_eqv (mt1 mt2 : MT) :
  eqv mt1 mt2 -> cursor_ok mt1 ->
  exists w mt1' mt2',
    randomMT mt1 = Some (w, mt1') /\ randomMT mt2 = Some (w, mt2') /\
    eqv mt1' mt2' /\ cursor_ok mt1'.
Proof.
  intros (Hw & Hl & Hn) [Hrange Hcur].
  destruct (Z_lt_le_dec (left mt1 - 1) 0) as [Hlt|Hge].
  - rewrite (randomMT_reload mt1) by exact Hlt.
    rewrite (randomMT_reload mt2) by (rewrite <- Hl; exact Hlt).
    rewrite <- Hl.
    set (a := {| state := state mt1; next := next mt1; left := left mt1 - 1 |}).
    set (b := {| state := state mt2; next := next mt2; left := left mt1 - 1 |}).
    destruct (reloadMT_eqv a b Hw eq_refl) as [Hfst Heqv].
    destruct (reloadMT_cursor a) as [Hl' Hn'].
    exists (fst (reloadMT a)), (snd (reloadMT a)), (snd (reloadMT b)).
    split; [destruct (reloadMT a); reflexivity|].
    split; [rewrite Hfst; destruct (reloadMT b); reflexivity|].
    split; [exact Heqv|].
    split; [lia|]. intros _. rewrite Hn', Hl'. reflexivity.
  - specialize (Hcur ltac:(lia)). specialize (Hn ltac:(lia)).
    pose proof Hw as (Hlen1 & Hlen2 & _).
    assert (Hi : (Z.to_nat (624 - left mt1) < length (state mt1))%nat)
      by (rewrite Hlen1; unfold N; lia).
    destruct (lookup_lt_is_Some_2 _ _ Hi) as [y Hy].
    assert (Hy2 : state mt2 !! Z.to_nat (624 - left mt1) = Some y).
    { rewrite <- (same_words_lookup _ _ _ Hw); [exact Hy|unfold N; lia]. }
    rewrite (randomMT_read mt1 _ y Hge Hcur Hy).
    rewrite (randomMT_read mt2 (Z.to_nat (624 - left mt1)) y)
      by (rewrite <- ?Hl, <- ?Hn; assumption).
    rewrite <- Hl.
    eexists _, _, _. split; [reflexivity|]. split; [reflexivity|].
    split; [repeat split; cbn [state left next]; try apply Hw; reflexivity|].
    split; cbn [left next]; [lia|]. intros Hl1. f_equal. lia.
Qed.

Lemma draw_eqv (k : nat) (mt1 mt2 : MT) :
  eqv mt1 mt2 -> cursor_ok mt1 ->
  exists ws mt1' mt2',
    draw k mt1 = Some (ws, mt1') /\ draw k mt2 = Some (ws, mt2') /\
    eqv mt1' mt2' /\ cursor_ok mt1'.
Proof.
  revert mt1 mt2. induction k as [|k IH]; intros mt1 mt2 He Hc.
  - exists [], mt1, mt2. repeat split; try apply He; apply Hc.
  - destruct (randomMT_eqv mt1 mt2 He Hc) as (w & a & b & Ha & Hb & He' & Hc').
    destruct (IH a b He' Hc') as (ws & a' & b' & Ha' & Hb' & He'' & Hc'').
    exists (w :: ws), a', b'. cbn [draw].
    rewrite Ha, Hb; cbn. rewrite Ha', Hb'; cbn.
    repeat split; try apply He''; apply Hc''.
Qed.

(** ** Little-endian bytes *)

Lemma le_split_length (k : nat) (x : Z) : length (le_split k x) = k.
Proof.
  revert x. induction k as [|k IH]; intros x; [reflexivity|].
  cbn [le_split length]. rewrite IH. reflexivity.
Qed.

Lemma le_split_u8 (k : nat) (x : Z) : Forall u8 (le_split k x).
Proof.
  revert x. induction k as [|k IH]; intros x; cbn [le_split]; constructor.
  - unfold u8. apply Z.mod_pos_bound. lia.
  - apply IH.
Qed.

Lemma le_combine_split (k : nat) (x : Z) :
  le_combine (le_split k x) = x mod 256 ^ Z.of_nat k.
Proof.
  revert x. induction k as [|k IH]; intros x.
  - cbn [le_split le_combine]. rewrite Z.pow_0_r, Z.mod_1_r. reflexivity.
  - cbn [le_split le_combine]. rewrite IH, Nat2Z.inj_succ, Z.pow_succ_r by lia.
    rewrite Z.rem_mul_r by lia. reflexivity.
Qed.

Lemma le_combine_split4 (x : Z) : le_combine (le_split 4 x) = wrap32 x.
Proof. rewrite le_combine_split. reflexivity. Qed.

Lemma le_combine_bound (bs : list Z) :
  Forall u8 bs -> 0 <= le_combine bs < 256 ^ Z.of_nat (length bs).
Proof.
  induction 1 as [|b bs Hb _ IH]; cbn [le_combine length]; [lia|].
  rewrite Nat2Z.inj_succ, Z.pow_succ_r by lia. unfold u8 in Hb. lia.
Qed.

Lemma le_combine_app (a b : list Z) :
  le_combine (a ++ b) = le_combine a + 256 ^ Z.of_nat (length a) * le_combine b.
Proof.
  induction a as [|x a IH]; cbn [le_combine app length].
  - rewrite Z.pow_0_r. lia.
  - rewrite IH, Nat2Z.inj_succ, Z.pow_succ_r by lia. ring.
Qed.

Lemma bytes_of_words_cons (w : Z) (ws : list Z) :
  bytes_of_words (w :: ws) = le_split 4 w ++ bytes_of_words ws.
Proof. reflexivity. Qed.

Lemma bytes_of_words_app (a b : list Z) :
  bytes_of_words (a ++ b) = bytes_of_words a ++ bytes_of_words b.
Proof. unfold bytes_of_words. apply bind_app. Qed.

Lemma bytes_of_words_length (ws : list Z) :
  length (bytes_of_words ws) = (4 * length ws)%nat.
Proof.
  induction ws as [|w ws IH]; [reflexivity|].
  rewrite bytes_of_words_cons, length_app, le_split_length, IH.
  cbn [length]. lia.
Qed.

Lemma bytes_of_words_u8 (ws : list Z) : Forall u8 (bytes_of_words ws).
Proof.
  induction ws as [|w ws IH]; [constructor|].
  rewrite bytes_of_words_cons. apply Forall_app.
  split; [apply le_split_u8|exact IH].
Qed.

(** The [i]-th 4-byte group of a word array's memory is the [i]-th word. *)
Lemma bytes_of_words_group (ws : list Z) (i : nat) (w : Z) :
  ws !! i = Some w ->
  take 4 (drop (4 * i) (bytes_of_words ws)) = le_split 4 w.
Proof.
  revert ws. induction i as [|i IH]; intros [|x ws] Hw; try discriminate.
  - injection Hw as ->. rewrite bytes_of_words_cons. cbn [Nat.mul drop].
    apply take_app_length'. rewrite le_split_length. reflexivity.
  - rewrite bytes_of_words_cons.
    replace (4 * S i)%nat with (4 + 4 * i)%nat by lia.
    rewrite drop_app_add' by (rewrite le_split_length; reflexivity).
    apply IH. exact Hw.
Qed.

(** ** The last word (line 196) *)

(** Masking with a shifted run of ones selects a field of the word. *)
Lemma land_shiftl_ones (x k w : Z) :
  0 <= k ->
  Z.land x (Z.shiftl (Z.ones w) k)
  = Z.shiftl (Z.land (Z.shiftr x k) (Z.ones w)) k.
Proof.
  intros Hk. apply Z.bits_inj'. intros i Hi.
  rewrite Z.land_spec, !Z.shiftl_spec by lia.
  destruct (Z_lt_le_dec i k) as [Hlt|Hge].
  - rewrite !(Z.testbit_neg_r _ (i - k)) by lia. apply andb_false_r.
  - rewrite Z.land_spec, Z.shiftr_spec by lia.
    replace (i - k + k) with i by lia. reflexivity.
Qed.

Lemma byte_of_range (j x : Z) : 0 <= byte_of j x < 2 ^ 8.
Proof. apply Z.mod_pos_bound. lia. Qed.

Lemma land_field (x k : Z) :
  0 <= k ->
  Z.land x (Z.shiftl (Z.ones 8) (8 * k)) = byte_of k x * 2 ^ (8 * k).
Proof.
  intros Hk. rewrite land_shiftl_ones by lia.
  rewrite Z.land_ones, Z.shiftr_div_pow2, Z.shiftl_mul_pow2 by lia.
  reflexivity.
Qed.

(** Fields that do not overlap add up. *)
Lemma lor_disjoint (a c k : Z) :
  0 <= k -> 0 <= a < 2 ^ k -> Z.lor a (c * 2 ^ k) = a + c * 2 ^ k.
Proof.
  intros Hk Ha.
  assert (H0 : Z.land a (c * 2 ^ k) = 0).
  { apply Z.bits_inj'. intros i Hi. rewrite Z.land_spec, Z.bits_0.
    destruct (Z_lt_le_dec i k) as [Hlt|Hge].
    - rewrite Z.mul_pow2_bits_low by lia. apply andb_false_r.
    - destruct (Z.eq_dec a 0) as [->|Hne]; [rewrite Z.bits_0; reflexivity|].
      rewrite (Z.bits_above_log2 a i); [reflexivity|lia|].
      assert (Z.log2 a < k) by (apply Z.log2_lt_pow2; lia). lia. }
  rewrite <- Z.lxor_lor by exact H0. symmetry. apply Z.add_nocarry_lxor, H0.
Qed.

Lemma bswap32_bytes (x : Z) :
  bswap32 x = byte_of 3 x + byte_of 2 x * 2 ^ 8 + byte_of 1 x * 2 ^ 16
              + byte_of 0 x * 2 ^ 24.
Proof.
  unfold bswap32.
  change 0xff000000 with (Z.shiftl (Z.ones 8) (8 * 3)).
  change 0x00ff0000 with (Z.shiftl (Z.ones 8) (8 * 2)).
  change 0x0000ff00 with (Z.shiftl (Z.ones 8) (8 * 1)).
  change 0x000000ff with (Z.shiftl (Z.ones 8) (8 * 0)).
  rewrite !land_field by lia.
  pose proof (byte_of_range 0 x) as H0. pose proof (byte_of_range 1 x) as H1.
  pose proof (byte_of_range 2 x) as H2. pose proof (byte_of_range 3 x) as H3.
  revert H0 H1 H2 H3.
  generalize (byte_of 0 x) (byte_of 1 x) (byte_of 2 x) (byte_of 3 x).
  intros b0 b1 b2 b3 H0 H1 H2 H3.
  rewrite !Z.shiftr_div_pow2 by (apply Z.leb_le; reflexivity).
  rewrite !Z.shiftl_mul_pow2 by (apply Z.leb_le; reflexivity).
  change (8 * 3) with 24. change (8 * 2) with 16. change (8 * 1) with 8.
  change (8 * 0) with 0. change (2 ^ 0) with 1. rewrite Z.mul_1_r.
  rewrite Z.div_mul by lia.
  replace (b2 * 2 ^ 16 / 2 ^ 8) with (b2 * 2 ^ 8)
    by (change (2 ^ 16) with (2 ^ 8 * 2 ^ 8);
        rewrite Z.mul_assoc, Z.div_mul; lia).
  replace (b1 * 2 ^ 8 * 2 ^ 8) with (b1 * 2 ^ 16) by lia.
  unfold wrap32. rewrite !Z.mod_small by lia.
  rewrite (lor_disjoint b3 b2 8) by lia.
  rewrite (lor_disjoint (b3 + b2 * 2 ^ 8) b1 16) by lia.
  rewrite (lor_disjoint (b3 + b2 * 2 ^ 8 + b1 * 2 ^ 16) b0 24) by lia.
  reflexivity.
Qed.

Lemma last_word_low16 (v : Z) :
  0 <= v < 65536 -> bswap32 (wrap32 (bswap32 v + 0x0200)) = v + 0x20000.
Proof.
  intros Hv. rewrite (bswap32_bytes v). unfold byte_of.
  change (8 * 3) with 24. change (8 * 2) with 16. change (8 * 1) with 8.
  change (8 * 0) with 0.
  rewrite (Z.div_small v (2 ^ 24)), (Z.div_small v (2 ^ 16)) by lia.
  change (0 mod 2 ^ 8) with 0. change (2 ^ 0) with 1. rewrite Z.div_1_r.
  pose proof (Z.mod_pos_bound v (2 ^ 8) ltac:(lia)) as Hb0.
  pose proof (Z.mod_pos_bound (v / 2 ^ 8) (2 ^ 8) ltac:(lia)) as Hb1.
  pose proof (Z.div_mod v (2 ^ 8) ltac:(lia)) as Hd.
  assert (Hq : 0 <= v / 2 ^ 8 < 2 ^ 8)
    by (split; [apply Z.div_pos; lia|apply Z.div_lt_upper_bound; lia]).
  rewrite (Z.mod_small (v / 2 ^ 8)) in * by lia.
  set (b0 := v mod 2 ^ 8) in *. set (b1 := v / 2 ^ 8) in *.
  unfold wrap32. rewrite Z.mod_small by lia.
  rewrite bswap32_bytes. unfold byte_of.
  change (8 * 3) with 24. change (8 * 2) with 16. change (8 * 1) with 8.
  change (8 * 0) with 0. change (2 ^ 0) with 1. rewrite Z.div_1_r.
  set (y := 0 + 0 * 2 ^ 8 + b1 * 2 ^ 16 + b0 * 2 ^ 24 + 0x0200).
  assert (E3 : (y / 2 ^ 24) mod 2 ^ 8 = b0).
  { replace y with (512 + b1 * 2 ^ 16 + b0 * 2 ^ 24) by (subst y; lia).
    rewrite Z.div_add by lia. rewrite Z.div_small by lia.
    apply Z.mod_small. lia. }
  assert (E2 : (y / 2 ^ 16) mod 2 ^ 8 = b1).
  { replace y with (512 + (b1 + b0 * 2 ^ 8) * 2 ^ 16) by (subst y; lia).
    rewrite Z.div_add by lia. rewrite Z.div_small by lia.
    rewrite Z.add_0_l, Z.mod_add by lia. apply Z.mod_small. lia. }
  assert (E1 : (y / 2 ^ 8) mod 2 ^ 8 = 2).
  { replace y with (0 + (2 + (b1 + b0 * 2 ^ 8) * 2 ^ 8) * 2 ^ 8) by (subst y; lia).
    rewrite Z.div_add by lia. rewrite Z.div_small by lia.
    rewrite Z.add_0_l, Z.mod_add by lia. reflexivity. }
  assert (E0 : y mod 2 ^ 8 = 0).
  { replace y with (0 + (2 + (b1 + b0 * 2 ^ 8) * 2 ^ 8) * 2 ^ 8) by (subst y; lia).
    rewrite Z.mod_add by lia. reflexivity. }
  rewrite E0, E1, E2, E3. lia.
Qed.

Lemma land_low16_range (w : Z) : 0 <= Z.land w 0xFFFF < 65536.
Proof.
  change 0xFFFF with (Z.ones 16). rewrite Z.land_ones by lia.
  apply Z.mod_pos_bound. lia.
Qed.

Lemma last_word_closed (w : Z) : last_word w = Z.land w 0xFFFF + 0x20000.
Proof. unfold last_word. apply last_word_low16, land_low16_range. Qed.

(** The little-endian bytes of the last word: the two low bytes of the
    engine's value, then [0x02] and [0x00]. *)
Lemma last_word_bytes (w : Z) :
  le_split 4 (last_word w) = [w mod 256; (w / 256) mod 256; 2; 0].
Proof.
  rewrite last_word_closed.
  change 0xFFFF with (Z.ones 16). rewrite Z.land_ones by lia.
  cbn [le_split].
  pose proof (Z.mod_pos_bound w (2 ^ 16) ltac:(lia)) as Hr.
  pose proof (Z.div_mod w (2 ^ 16) ltac:(lia)) as Hd.
  set (v := w mod 2 ^ 16) in *.
  assert (E0 : (v + 0x20000) mod 256 = w mod 256).
  { replace (v + 0x20000) with (w + (512 - 256 * (w / 2 ^ 16)) * 256) by lia.
    apply Z.mod_add. lia. }
  assert (E1 : (v + 0x20000) / 256 = v / 256 + 512).
  { replace (v + 0x20000) with (v + 512 * 256) by lia.
    apply Z.div_add. lia. }
  assert (Hq : 0 <= v / 256 < 256).
  { split; [apply Z.div_pos; lia|apply Z.div_lt_upper_bound; lia]. }
  assert (E1' : (v / 256 + 512) mod 256 = (w / 256) mod 256).
  { replace (v / 256 + 512) with (v / 256 + 2 * 256) by lia.
    rewrite Z.mod_add by lia.
    assert (w / 256 = v / 256 + (w / 2 ^ 16) * 256) as ->.
    { replace w with (v + (w / 2 ^ 16 * 256) * 256) at 1 by lia.
      apply Z.div_add. lia. }
    rewrite Z.mod_add by lia. reflexivity. }
  assert (E2 : (v / 256 + 512) / 256 = 2).
  { replace (v / 256 + 512) with (v / 256 + 2 * 256) by lia.
    rewrite Z.div_add by lia. rewrite Z.div_small by lia. reflexivity. }
  rewrite E0, E1, E1', E2. reflexivity.
Qed.

(** ** The fill loop (lines 191-202) *)

Lemma fill_draw (k j : nat) (rd : list Z) (mt : MT) :
  fill k j rd mt =
    '(ws, mt') ← draw k mt; Some (store_words j ws rd, mt').
Proof.
  revert j rd mt. induction k as [|k IH]; intros j rd mt; [reflexivity|].
  cbn [fill draw]. destruct (randomMT mt) as [[w mt1]|]; [|reflexivity].
  cbn. rewrite IH. destruct (draw k mt1) as [[ws mt2]|]; reflexivity.
Qed.

Lemma store_words_app (j : nat) (a b : list Z) (rd : list Z) :
  store_words j (a ++ b) rd = store_words (j + length a) b (store_words j a rd).
Proof.
  revert j rd. induction a as [|w a IH]; intros j rd.
  - cbn. rewrite Nat.add_0_r. reflexivity.
  - cbn [app store_words length]. rewrite IH.
    replace (S j + length a)%nat with (j + S (length a))%nat by lia.
    reflexivity.
Qed.

Lemma store_words_plain (j : nat) (ws : list Z) (rd : list Z) :
  (j + length ws <= 63)%nat -> (j + length ws <= length rd)%nat ->
  store_words j ws rd = take j rd ++ ws ++ drop (j + length ws) rd.
Proof.
  revert j rd. induction ws as [|w ws IH]; intros j rd H63 Hlen.
  - cbn. rewrite Nat.add_0_r, take_drop. reflexivity.
  - cbn [store_words length] in *.
    destruct (Nat.eqb_spec j 63) as [->|_]; [lia|].
    rewrite IH by (rewrite ?length_insert; lia).
    rewrite take_insert_lt by lia.
    rewrite drop_insert_lt by lia.
    assert (Hj : (j < length rd)%nat) by lia.
    destruct (lookup_lt_is_Some_2 rd j Hj) as [y Hy].
    rewrite (take_S_r _ _ _ Hy).
    rewrite insert_app_r_alt by (rewrite length_take; lia).
    rewrite length_take_le by lia. rewrite Nat.sub_diag. cbn [insert list_insert].
    rewrite <- app_assoc. cbn [app].
    replace (S j + length ws)%nat with (j + S (length ws))%nat by lia.
    reflexivity.
Qed.

(** The 64 words of [rand_data] after the loop. *)
Lemma store_words_64 (ws rd : list Z) :
  length ws = 64%nat -> length rd = 64%nat ->
  store_words 0 ws rd = take 63 ws ++ [last_word (ws !!! 63%nat)].
Proof.
  intros Hws Hrd.
  assert (H63 : (63 < length ws)%nat) by lia.
  destruct (lookup_lt_is_Some_2 ws 63 H63) as [w Hw].
  rewrite (list_lookup_total_correct _ _ _ Hw).
  rewrite <- (take_drop_middle ws 63 w Hw) at 1.
  replace (drop 64 ws) with (@nil Z) by (symmetry; apply drop_ge; lia).
  rewrite store_words_app, length_take_le by lia.
  rewrite (store_words_plain 0 (take 63 ws)) by (rewrite length_take_le; lia).
  rewrite length_take_le by lia.
  assert (Hd : (63 < length rd)%nat) by lia.
  destruct (lookup_lt_is_Some_2 rd 63 Hd) as [y Hy].
  change (0 + 63)%nat with 63%nat. change (take 0 rd) with (@nil Z).
  rewrite (drop_S _ _ _ Hy), (drop_ge rd 64) by lia.
  cbn [app store_words]. change (63 =? 63)%nat with true. cbv iota.
  rewrite insert_app_r_alt by (rewrite length_take_le; lia).
  rewrite length_take_le by lia. rewrite Nat.sub_diag. reflexivity.
Qed.

(** ** The candidate buffer *)

Arguments fill : simpl never.
Arguments draw : simpl never.

Lemma seedMT_reset (seed : Z) (mt : MT) :
  seedMT seed {| state := state mt; next := next mt; left := -1 |}
  = seedMT seed mt.
Proof. reflexivity. Qed.

Lemma cursor_ok_seedMT (seed : Z) (mt : MT) : cursor_ok (seedMT seed mt).
Proof. unfold cursor_ok, seedMT; cbn [left next]. lia. Qed.

Lemma build_spec (seed : Z) (mt : MT) :
  MT_ok mt ->
  exists ws mt1,
    draw 64 (seedMT seed mt) = Some (ws, mt1) /\
    length ws = 64%nat /\ Forall u32 ws /\ MT_ok mt1 /\
    build seed mt =
      Some (candidate_of ws, mt1).
Proof.
  intros Hok.
  destruct (draw_total 64 (seedMT seed mt) (seedMT_ok seed mt Hok)
              (cursor_ok_seedMT seed mt))
    as (ws & mt1 & Hd & Hlen & Hall & Hok1 & _).
  exists ws, mt1. repeat (split; [assumption|]).
  unfold build. rewrite seedMT_reset, fill_draw, Hd. cbn [mbind option_bind].
  rewrite store_words_64 by (rewrite ?length_replicate; auto).
  reflexivity.
Qed.

Lemma candidate_spec (seed : Z) (mt : MT) :
  MT_ok mt ->
  exists ws,
    outputs seed mt = Some ws /\ length ws = 64%nat /\ Forall u32 ws /\
    candidate seed mt = Some (candidate_of ws).
Proof.
  intros Hok. destruct (build_spec seed mt Hok) as (ws & mt1 & Hd & Hl & Ha & _ & Hb).
  exists ws. unfold outputs, candidate. rewrite Hd, Hb. auto.
Qed.

Lemma group_insert_other (buf : list Z) (i j : nat) (x : Z) :
  (i < 4 * j \/ 4 * j + 4 <= i)%nat ->
  group (<[i := x]> buf) j = group buf j.
Proof.
  intros [Hlt|Hge]; unfold group.
  - rewrite drop_insert_lt by exact Hlt. reflexivity.
  - rewrite drop_insert_ge, take_insert_ge by lia. reflexivity.
Qed.

Lemma group_insert_in (buf : list Z) (i j : nat) (x : Z) :
  (4 * j <= i < 4 * j + 4)%nat ->
  group (<[i := x]> buf) j = <[(i - 4 * j)%nat := x]> (group buf j).
Proof.
  intros Hi. unfold group.
  rewrite drop_insert_ge, take_insert_lt by lia. reflexivity.
Qed.

Lemma load32_group (buf : list Z) (j : nat) :
  load32 buf j = le_combine (group buf j).
Proof. reflexivity. Qed.

Section Candidate.

Variable ws : list Z.
Hypothesis Hlen : length ws = 64%nat.
Hypothesis Hall : Forall u32 ws.

Lemma rand_data_lookup (j : nat) :
  (j < 63)%nat -> rand_data_of ws !! j = Some (ws !!! j).
Proof using Hlen.
  intros Hj. unfold rand_data_of.
  rewrite lookup_app_l by (rewrite length_take_le; lia).
  rewrite lookup_take_lt by exact Hj.
  apply list_lookup_lookup_total_lt. lia.
Qed.

Lemma rand_data_last :
  rand_data_of ws !! 63%nat = Some (last_word (ws !!! 63%nat)).
Proof using Hlen.
  unfold rand_data_of. rewrite lookup_app_r by (rewrite length_take_le; lia).
  rewrite length_take_le by lia. reflexivity.
Qed.

Lemma candidate_length : length (candidate_of ws) = 256%nat.
Proof using Hlen.
  unfold candidate_of, rand_data_of.
  rewrite length_insert, bytes_of_words_length, length_app.
  rewrite length_take_le by lia. reflexivity.
Qed.

Lemma candidate_byte_245 : candidate_of ws !! 245%nat = Some 0.
Proof using Hlen.
  unfold candidate_of. apply list_lookup_insert_eq.
  pose proof candidate_length as H. unfold candidate_of in H.
  rewrite length_insert in H. lia.
Qed.

Lemma candidate_group (j : nat) :
  (j < 63)%nat -> j <> 61%nat ->
  group (candidate_of ws) j = le_split 4 (ws !!! j).
Proof using Hlen.
  intros Hj Hne. unfold candidate_of. rewrite group_insert_other by lia.
  apply bytes_of_words_group, rand_data_lookup, Hj.
Qed.

Lemma candidate_word (j : nat) :
  (j < 63)%nat -> j <> 61%nat -> load32 (candidate_of ws) j = ws !!! j.
Proof using Hlen Hall.
  intros Hj Hne. rewrite load32_group, candidate_group by assumption.
  rewrite le_combine_split4. apply wrap32_u32, u32_lookup_total, Hall.
Qed.

Lemma candidate_group_61 :
  group (candidate_of ws) 61 = <[1%nat := 0]> (le_split 4 (ws !!! 61%nat)).
Proof using Hlen.
  unfold candidate_of. rewrite group_insert_in by lia.
  change (245 - 4 * 61)%nat with 1%nat. f_equal.
  apply bytes_of_words_group, rand_data_lookup. lia.
Qed.

Lemma candidate_group_63 :
  group (candidate_of ws) 63 = le_split 4 (last_word (ws !!! 63%nat)).
Proof using Hlen.
  unfold candidate_of. rewrite group_insert_other by lia.
  apply bytes_of_words_group, rand_data_last.
Qed.

Lemma candidate_word_63 : load32 (candidate_of ws) 63 = last_word (ws !!! 63%nat).
Proof using Hlen.
  rewrite load32_group, candidate_group_63, le_combine_split4.
  apply wrap32_u32, u32_bswap32.
Qed.

(** The buffer as a number: 252 bytes, then the bytes of the last word. *)
Lemma candidate_split :
  exists low : list Z,
    length low = 252%nat /\ Forall u8 low /\
    candidate_of ws = low ++ le_split 4 (last_word (ws !!! 63%nat)).
Proof using Hlen.
  exists (<[245%nat := 0]> (bytes_of_words (take 63 ws))).
  assert (Hl : length (bytes_of_words (take 63 ws)) = 252%nat)
    by (rewrite bytes_of_words_length, length_take_le by lia; reflexivity).
  split; [rewrite length_insert; exact Hl|]. split.
  - apply Forall_insert; [apply bytes_of_words_u8|]. unfold u8; lia.
  - unfold candidate_of, rand_data_of. rewrite bytes_of_words_app.
    rewrite insert_app_l by lia. f_equal.
Qed.
End Candidate.

(** ** The oracle *)

Lemma modulus_fits : 0 < n < 256 ^ 256.
Proof. split; apply Z.ltb_lt; vm_compute; reflexivity. Qed.

Lemma encrypt_length (buf : list Z) : length (encrypt buf) = 256%nat.
Proof. unfold encrypt, BN_bn2lebinpad. apply le_split_length. Qed.

(** The 256 bytes written by [BN_bn2lebinpad] are the residue itself:
    nothing is cut off. *)
Lemma encrypt_value (buf : list Z) :
  BN_lebin2bn (encrypt buf) 256 = (BN_lebin2bn buf 256) ^ e mod n.
Proof.
  pose proof modulus_fits as Hn.
  unfold BN_lebin2bn at 1. rewrite take_ge by (rewrite encrypt_length; lia).
  unfold encrypt, BN_bn2lebinpad, BN_mod_exp.
  rewrite le_combine_split, Zpow_mod_correct by lia.
  change (Z.of_nat 256) with 256.
  apply Z.mod_small.
  pose proof (Z.mod_pos_bound (BN_lebin2bn buf 256 ^ e) n ltac:(lia)). lia.
Qed.

(** ** A trial depends on the seed alone *)

Lemma eqv_seedMT (seed : Z) (mt1 mt2 : MT) :
  MT_ok mt1 -> MT_ok mt2 -> eqv (seedMT seed mt1) (seedMT seed mt2).
Proof.
  intros [H1 _] [H2 _]. split; [apply seedMT_same; assumption|].
  unfold seedMT; cbn [left next]. split; [reflexivity|lia].
Qed.

Lemma outputs_indep (seed : Z) (mt1 mt2 : MT) :
  MT_ok mt1 -> MT_ok mt2 -> outputs seed mt1 = outputs seed mt2.
Proof.
  intros H1 H2. unfold outputs.
  destruct (draw_eqv 64 _ _ (eqv_seedMT seed mt1 mt2 H1 H2)
              (cursor_ok_seedMT seed mt1))
    as (ws & a & b & Ha & Hb & _).
  rewrite Ha, Hb. reflexivity.
Qed.

Lemma candidate_indep (seed : Z) (mt1 mt2 : MT) :
  MT_ok mt1 -> MT_ok mt2 -> candidate seed mt1 = candidate seed mt2.
Proof.
  intros H1 H2.
  destruct (candidate_spec seed mt1 H1) as (ws1 & Ho1 & _ & _ & Hc1).
  destruct (candidate_spec seed mt2 H2) as (ws2 & Ho2 & _ & _ & Hc2).
  rewrite (outputs_indep seed mt1 mt2 H1 H2), Ho2 in Ho1.
  injection Ho1 as <-. rewrite Hc1, Hc2. reflexivity.
Qed.

(** ** The search loop *)

Lemma iteration_spec (match_ : Z) (l : loop) :
  MT_ok (engine l) ->
  exists buf mt1,
    build (seed l) (engine l) = Some (buf, mt1) /\ MT_ok mt1 /\
    trial (seed l) = Some (encrypt buf) /\
    iteration match_ l =
      Some (if load32 (encrypt buf) 0 =? match_ then
              {| seed := wrap32 (seed l + 2); done := true; engine := mt1;
                 stdout := stdout l ++
                   [ {| found_seed := seed l;
                        key_data := words_of_bytes 64 buf;
                        seed_data := words_of_bytes 64 (encrypt buf) |} ] |}
            else
              {| seed := wrap32 (seed l + 2); done := false; engine := mt1;
                 stdout := stdout l |}).
Proof.
  intros Hok.
  destruct (build_spec (seed l) (engine l) Hok)
    as (ws & mt1 & _ & _ & _ & Hok1 & Hb).
  eexists _, mt1. split; [exact Hb|]. split; [exact Hok1|]. split.
  - unfold trial.
    rewrite (candidate_indep (seed l) fresh (engine l) MT_ok_fresh Hok).
    unfold candidate. rewrite Hb. reflexivity.
  - unfold iteration. rewrite Hb. cbn [mbind option_bind].
    match goal with |- context [?a =? ?b] => destruct (a =? b) end; reflexivity.
Qed.

Lemma iteration_done (match_ : Z) (l : loop) :
  MT_ok (engine l) ->
  exists l',
    iteration match_ l = Some l' /\ MT_ok (engine l') /\
    seed l' = wrap32 (seed l + 2) /\ done l' = hit match_ (seed l) /\
    (done l' = false -> stdout l' = stdout l).
Proof.
  intros Hok.
  destruct (iteration_spec match_ l Hok) as (buf & mt1 & _ & Hok1 & Ht & Hi).
  unfold hit. rewrite Ht. revert Hi.
  generalize (encrypt buf). intros out Hi.
  destruct (load32 out 0 =? match_);
    (eexists; split; [exact Hi|]); cbn [engine seed done stdout];
    (split; [exact Hok1|]); (split; [reflexivity|]); (split; [reflexivity|]).
  - intros H; discriminate H.
  - intros _; reflexivity.
Qed.

Lemma seed_at_0 (seed0 : Z) : u32 seed0 -> seed_at seed0 0 = seed0.
Proof. intros H. unfold seed_at. rewrite Z.mul_0_r, Z.add_0_r. apply wrap32_u32, H. Qed.

Lemma seed_at_S (seed0 : Z) (k : nat) :
  seed_at (wrap32 (seed0 + 2)) k = seed_at seed0 (S k).
Proof.
  unfold seed_at, wrap32. rewrite Nat2Z.inj_succ.
  rewrite Zplus_mod_idemp_l. f_equal. lia.
Qed.

Lemma run_spec (fuel : nat) (match_ : Z) (l : loop) :
  MT_ok (engine l) -> u32 (seed l) -> done l = false ->
  match run fuel match_ l with
  | Exited status l' =>
      status = EXIT_SUCCESS /\ done l' = true /\
      exists k, (k < fuel)%nat /\
        hit match_ (seed_at (seed l) k) = true /\
        (forall i, (i < k)%nat -> hit match_ (seed_at (seed l) i) = false) /\
        seed l' = seed_at (seed l) (S k)
  | Running l' =>
      done l' = false /\ seed l' = seed_at (seed l) fuel /\
      stdout l' = stdout l /\
      forall i, (i < fuel)%nat -> hit match_ (seed_at (seed l) i) = false
  | Undefined => False
  end.
Proof.
  revert l. induction fuel as [|fuel IH]; intros l Hok Hs Hd.
  - cbn [run]. rewrite Hd. repeat split; try assumption; try lia.
    symmetry. apply seed_at_0, Hs.
  - cbn [run]. rewrite Hd.
    destruct (iteration_done match_ l Hok) as (l1 & Hi & Hok1 & Hs1 & Hd1 & Ho1).
    rewrite Hi.
    assert (Hu1 : u32 (seed l1)) by (rewrite Hs1; apply u32_wrap32).
    destruct (done l1) eqn:Hdone.
    + destruct fuel; cbn [run]; rewrite Hdone;
        (split; [reflexivity|]; split; [exact Hdone|]; exists 0%nat;
         rewrite seed_at_0 by exact Hs;
         split; [lia|]; split; [congruence|]; split; [intros; lia|];
         rewrite Hs1; unfold seed_at; f_equal; lia).
    + specialize (IH l1 Hok1 Hu1 Hdone). rewrite Hs1 in IH.
      assert (Hfirst : forall i, (i < S fuel)%nat ->
                (forall j, (j < fuel)%nat ->
                   hit match_ (seed_at (wrap32 (seed l + 2)) j) = false) ->
                hit match_ (seed_at (seed l) i) = false).
      { intros [|i] Hi' Hrest.
        - rewrite seed_at_0 by exact Hs. congruence.
        - rewrite <- seed_at_S. apply Hrest. lia. }
      destruct (run fuel match_ l1) as [status l'|l'|]; [| |exact IH].
      * destruct IH as (Hst & Hd' & k & Hk & Hhit & Hbefore & Hseed).
        split; [exact Hst|]. split; [exact Hd'|]. exists (S k).
        rewrite seed_at_S in Hhit, Hseed.
        split; [lia|]. split; [exact Hhit|]. split; [|exact Hseed].
        intros [|i] Hi'.
        -- rewrite seed_at_0 by exact Hs. congruence.
        -- rewrite <- seed_at_S. apply Hbefore. lia.
      * destruct IH as (Hd' & Hseed & Hout & Hnone).
        rewrite seed_at_S in Hseed.
        split; [exact Hd'|]. split; [exact Hseed|].
        split; [rewrite Hout; apply Ho1; reflexivity|].
        intros i Hi'. apply Hfirst; assumption.
Qed.

(** ** Engines the program can reach *)

Lemma reachable_inv (mt : MT) : reachable mt -> MT_ok mt /\ cursor_ok mt.
Proof.
  induction 1 as [|seed mt _ [IH _]|mt _ [IH _]|mt w mt' _ [IH IHc] Hr
                 |mt _ [IH _]].
  - split; [apply MT_ok_fresh|]. unfold cursor_ok, fresh; cbn [left next]. lia.
  - split; [apply seedMT_ok, IH|apply cursor_ok_seedMT].
  - split; [apply reloadMT_ok, IH|].
    destruct (reloadMT_cursor mt) as [Hl Hn]. unfold cursor_ok.
    rewrite Hl, Hn. split; [lia|reflexivity].
  - destruct (randomMT_total mt IH IHc) as (w1 & mt1 & Hr1 & _ & Hok & Hc & _).
    rewrite Hr in Hr1. injection Hr1 as -> ->. split; assumption.
  - split; [exact IH|]. apply cursor_ok_left0. lia.
Qed.

Lemma reloadMT_no_reseed (mt : MT) :
  -1 <= left mt -> reloadMT mt = regenerate (state mt).
Proof.
  intros H. rewrite reloadMT_eq.
  destruct (Z.ltb_spec (left mt) (-1)); [lia|reflexivity].
Qed.

Lemma reloadMT_reseed (mt : MT) :
  left mt < -1 -> reloadMT mt = regenerate (state (seedMT 1 mt)).
Proof.
  intros H. rewrite reloadMT_eq.
  destruct (Z.ltb_spec (left mt) (-1)); [reflexivity|lia].
Qed.

Lemma randomMT_seedMT (seed : Z) (mt : MT) :
  randomMT (seedMT seed mt) = Some (regenerate (state (seedMT seed mt))).
Proof.
  rewrite randomMT_reload by (unfold seedMT; cbn [left]; lia).
  rewrite reloadMT_no_reseed by (unfold seedMT; cbn [left]; lia).
  reflexivity.
Qed.

Lemma draw_S (k : nat) (mt : MT) :
  draw (S k) mt =
    '(w, mt) ← randomMT mt; '(ws, mt) ← draw k mt; Some (w :: ws, mt).
Proof. reflexivity. Qed.

Lemma seed_word (seed : Z) :
  u32 seed -> Z.land (Z.lor seed 1) 0xFFFFFFFF = Z.lor seed 1.
Proof.
  intros H. rewrite land_ones32. apply wrap32_u32, u32_lor; [exact H|].
  unfold u32; lia.
Qed.

Lemma seed_word_even (k : Z) :
  Z.land (Z.lor (wrap32 (2 * k)) 1) 0xFFFFFFFF = wrap32 (2 * k + 1).
Proof.
  rewrite wrap32_double, lor_1_even, <- wrap32_double_succ.
  rewrite land_ones32. apply wrap32_u32, u32_wrap32.
Qed.

Lemma seed_word_odd (k : Z) :
  Z.land (Z.lor (wrap32 (2 * k + 1)) 1) 0xFFFFFFFF = wrap32 (2 * k + 1).
Proof.
  rewrite wrap32_double_succ, lor_1_odd, <- wrap32_double_succ.
  rewrite land_ones32. apply wrap32_u32, u32_wrap32.
Qed.

Lemma seedMT_word (seed1 seed2 : Z) (mt : MT) :
  Z.land (Z.lor seed1 1) 0xFFFFFFFF = Z.land (Z.lor seed2 1) 0xFFFFFFFF ->
  seedMT seed1 mt = seedMT seed2 mt.
Proof. intros H. unfold seedMT. rewrite H. reflexivity. Qed.

(** The modulus has 2048 bits; three times [2^2032] lies below it. *)
Lemma modulus_large : 256 ^ 252 * 196608 <= n.
Proof. apply Z.leb_le. vm_compute. reflexivity. Qed.

(** ** One trial, evaluated *)

Lemma square_mod_pow (k : nat) (a m : Z) :
  0 < m -> square_mod k (a mod m) m = (a ^ (2 ^ Z.of_nat k)) mod m.
Proof.
  intros Hm. revert a. induction k as [|k IH]; intros a.
  - cbn [square_mod]. change (2 ^ Z.of_nat 0) with 1. rewrite Z.pow_1_r. reflexivity.
  - cbn [square_mod]. rewrite <- Z.mul_mod by lia. rewrite IH.
    rewrite Nat2Z.inj_succ, Z.pow_succ_r by lia.
    rewrite Z.pow_mul_r by lia. rewrite Z.pow_2_r. reflexivity.
Qed.

Lemma big_square_mod_spec (k : nat) (x m : bigZ) :
  BigZ.to_Z (big_square_mod k x m)
  = square_mod k (BigZ.to_Z x) (BigZ.to_Z m).
Proof.
  revert x. induction k as [|k IH]; intros x; [reflexivity|].
  cbn [big_square_mod square_mod].
  rewrite IH, BigZ.spec_modulo, BigZ.spec_mul. reflexivity.
Qed.

Lemma BN_mod_exp_big (a m : Z) :
  0 < m ->
  BN_mod_exp a 65537 m = BigZ.to_Z (big_mod_exp (BigZ.of_Z a) (BigZ.of_Z m)).
Proof.
  intros Hm. unfold BN_mod_exp, big_mod_exp.
  rewrite Zpow_mod_correct by lia.
  rewrite BigZ.spec_modulo, BigZ.spec_mul, big_square_mod_spec.
  rewrite BigZ.spec_modulo, !BigZ.spec_of_Z.
  rewrite square_mod_pow by exact Hm.
  rewrite Z.mul_mod_idemp_l by lia.
  change 65537 with (2 ^ Z.of_nat 16 + 1).
  rewrite Z.pow_add_r, Z.pow_1_r by lia. reflexivity.
Qed.

Lemma outputs_seed1_eq : outputs 1 fresh = Some outputs_seed1.
Proof. vm_compute. reflexivity. Qed.

Lemma candidate_seed1_eq : candidate 1 fresh = Some candidate_seed1.
Proof. vm_compute. reflexivity. Qed.

Lemma encrypt_seed1 : encrypt candidate_seed1 = rsa_output_seed1.
Proof.
  unfold encrypt. change e with 65537.
  rewrite BN_mod_exp_big by reflexivity.
  vm_compute. reflexivity.
Qed.

Lemma trial_seed1_eq : trial 1 = Some rsa_output_seed1.
Proof.
  unfold trial. rewrite candidate_seed1_eq.
  cbn [fmap option_fmap option_map]. rewrite encrypt_seed1. reflexivity.
Qed.

(** * The claims *)

(** C1, as stated, fails: with the target equal to the first 8 bytes of the
    oracle's output of the trial of seed 1, read as a little-endian 64-bit
    value, the round does not find it. *)
Lemma C1_counterexample :
  exists rsa_output,
    trial 1 = Some rsa_output /\
    done <$> iteration (load64 rsa_output 0) (start 1) = Some false.
Proof.
  exists rsa_output_seed1. split; [exact trial_seed1_eq|].
  destruct (iteration_done (load64 rsa_output_seed1 0) (start 1) MT_ok_fresh)
    as (l' & Hi & _ & _ & Hd & _).
  rewrite Hi. cbn [fmap option_fmap option_map]. rewrite Hd.
  unfold hit. change (seed (start 1)) with 1. rewrite trial_seed1_eq.
  vm_compute. reflexivity.
Qed.

(** C1, amended: each round compares the first 4 bytes of the oracle's
    output, read as a little-endian 32-bit value and zero-extended, with the
    64-bit target, and sets [done] exactly when they are equal; that value is
    below [2^32], so a target with a non-zero upper half is never found. *)
Theorem C1_compare_first_word (match_ : Z) (l : loop) :
  MT_ok (engine l) ->
  exists buf mt1 l',
    build (seed l) (engine l) = Some (buf, mt1) /\
    iteration match_ l = Some l' /\
    (done l' = true <-> load32 (encrypt buf) 0 = match_) /\
    0 <= load32 (encrypt buf) 0 < 2 ^ 32.
Proof.
  intros Hok.
  destruct (iteration_spec match_ l Hok) as (buf & mt1 & Hb & _ & _ & Hi).
  exists buf, mt1. revert Hi. unfold encrypt.
  generalize (BN_mod_exp (BN_lebin2bn buf 256) e n). intros out Hi.
  assert (Hrange : 0 <= load32 (BN_bn2lebinpad out 256) 0 < 2 ^ 32).
  { unfold load32, BN_bn2lebinpad.
    assert (Hu : Forall u8 (take 4 (drop (4 * 0) (le_split 256 out))))
      by apply Forall_take, Forall_drop, le_split_u8.
    pose proof (le_combine_bound _ Hu) as Hb'.
    rewrite length_take_le in Hb'
      by (rewrite length_drop, le_split_length; lia).
    exact Hb'. }
  destruct (Z.eqb_spec (load32 (BN_bn2lebinpad out 256) 0) match_) as [He|Hne];
    (eexists; split; [exact Hb|]; split; [exact Hi|]; split; [|exact Hrange]);
    cbn [done]; split; intros H; congruence.
Qed.

Lemma C1_witness :
  MT_ok (engine (start 1)) /\
  exists buf mt1 l',
    build (seed (start 1)) (engine (start 1)) = Some (buf, mt1) /\
    iteration 0 (start 1) = Some l' /\
    (done l' = true <-> load32 (encrypt buf) 0 = 0) /\
    0 <= load32 (encrypt buf) 0 < 2 ^ 32.
Proof.
  split; [exact MT_ok_fresh|].
  exact (C1_compare_first_word 0 (start 1) MT_ok_fresh).
Defined.

(** C2, as stated, fails: for seed 1 the group of bytes 244-247 is not the
    62nd engine value, because byte 245 lies in it. *)
Lemma C2_counterexample :
  exists ws buf,
    outputs 1 fresh = Some ws /\ candidate 1 fresh = Some buf /\
    (61 < 63)%nat /\ load32 buf 61 <> ws !!! 61%nat.
Proof.
  exists outputs_seed1, candidate_seed1.
  split; [exact outputs_seed1_eq|]. split; [exact candidate_seed1_eq|].
  split; [lia|]. vm_compute. discriminate.
Qed.

(** C2, amended: for every seed the 256-byte buffer has byte 245 equal to 0;
    each of its first 63 little-endian 4-byte groups other than group 61
    equals the engine value of the same index; group 61 holds the bytes of
    the 62nd engine value with its second byte replaced by 0; and the last
    group's value is [bswap32 (bswap32 (w & 0xFFFF) + 0x0200)] for the 64th
    engine value [w]. *)
Theorem C2_candidate_layout (seed : Z) (mt : MT) :
  MT_ok mt ->
  exists ws buf,
    outputs seed mt = Some ws /\ candidate seed mt = Some buf /\
    length ws = 64%nat /\ length buf = 256%nat /\
    buf !! 245%nat = Some 0 /\
    (forall j, (j < 63)%nat -> j <> 61%nat -> load32 buf j = ws !!! j) /\
    group buf 61 = <[1%nat := 0]> (le_split 4 (ws !!! 61%nat)) /\
    load32 buf 63 =
      bswap32 (wrap32 (bswap32 (Z.land (ws !!! 63%nat) 0xFFFF) + 0x0200)).
Proof.
  intros Hok.
  destruct (candidate_spec seed mt Hok) as (ws & Ho & Hlen & Hall & Hc).
  exists ws. eexists. split; [exact Ho|]. split; [exact Hc|].
  split; [exact Hlen|].
  split; [apply candidate_length, Hlen|].
  split; [apply candidate_byte_245, Hlen|].
  split; [intros j Hj Hne; apply candidate_word; assumption|].
  split; [apply candidate_group_61, Hlen|].
  apply candidate_word_63, Hlen.
Qed.

Lemma C2_witness :
  MT_ok fresh /\
  exists ws buf,
    outputs 1 fresh = Some ws /\ candidate 1 fresh = Some buf /\
    buf !! 245%nat = Some 0 /\
    group buf 61 = <[1%nat := 0]> (le_split 4 (ws !!! 61%nat)).
Proof.
  split; [exact MT_ok_fresh|].
  destruct (C2_candidate_layout 1 fresh MT_ok_fresh)
    as (ws & buf & Ho & Hc & _ & _ & H245 & _ & H61 & _).
  exists ws, buf. auto.
Defined.

(** C3, as stated, fails: for seed 1 the last group is not the byte-reversed
    sum of the masked 64th engine value and [0x0200]. *)
Lemma C3_counterexample :
  exists ws buf,
    outputs 1 fresh = Some ws /\ candidate 1 fresh = Some buf /\
    load32 buf 63 <> claimed_last_word (ws !!! 63%nat).
Proof.
  exists outputs_seed1, candidate_seed1.
  split; [exact outputs_seed1_eq|]. split; [exact candidate_seed1_eq|].
  vm_compute. discriminate.
Qed.

(** C3, amended: for every seed the last word of the buffer is obtained by
    masking the 64th engine value to its low 16 bits, reversing the bytes of
    the masked value, adding [0x0200] to the reversed value and reversing the
    bytes of the sum; the stored word is [(w & 0xFFFF) + 0x00020000], its
    bytes in memory the two low bytes of [w], then [0x02], then [0x00]. *)
Theorem C3_last_word (seed : Z) (mt : MT) :
  MT_ok mt ->
  exists ws buf,
    outputs seed mt = Some ws /\ candidate seed mt = Some buf /\
    let w := ws !!! 63%nat in
    load32 buf 63 = bswap32 (wrap32 (bswap32 (Z.land w 0xFFFF) + 0x0200)) /\
    load32 buf 63 = Z.land w 0xFFFF + 0x20000 /\
    group buf 63 = [w mod 256; (w / 256) mod 256; 2; 0].
Proof.
  intros Hok.
  destruct (candidate_spec seed mt Hok) as (ws & Ho & Hlen & Hall & Hc).
  exists ws. eexists. split; [exact Ho|]. split; [exact Hc|]. cbv zeta.
  split; [apply candidate_word_63, Hlen|].
  split.
  - rewrite candidate_word_63 by exact Hlen. apply last_word_closed.
  - rewrite candidate_group_63 by exact Hlen. apply last_word_bytes.
Qed.

Lemma C3_witness :
  MT_ok fresh /\
  exists ws buf,
    outputs 1 fresh = Some ws /\ candidate 1 fresh = Some buf /\
    load32 buf 63 = Z.land (ws !!! 63%nat) 0xFFFF + 0x20000.
Proof.
  split; [exact MT_ok_fresh|].
  destruct (C3_last_word 1 fresh MT_ok_fresh) as (ws & buf & Ho & Hc & _ & H & _).
  exists ws, buf. auto.
Defined.

(** C4: for every 32-bit seed, [seedMT] stores [seed | 1] in state word 0
    and [69069 * x[i-1] mod 2^32] in each word [i] from 1 to 623, and sets the
    countdown to 0, so that the next [randomMT] call regenerates the batch
    from these words. *)
Theorem C4_seedMT_recurrence (seed : Z) (mt : MT) :
  u32 seed -> length (state mt) = S N ->
  state (seedMT seed mt) !! 0%nat = Some (Z.lor seed 1) /\
  (forall i, (1 <= i <= 623)%nat ->
     state (seedMT seed mt) !! i =
       Some (wrap32 (69069 * (state (seedMT seed mt) !!! (i - 1)%nat)))) /\
  left (seedMT seed mt) = 0 /\
  randomMT (seedMT seed mt) = Some (regenerate (state (seedMT seed mt))).
Proof.
  intros Hseed Hlen. rewrite (seedMT_state seed mt Hlen). cbv zeta.
  rewrite (seed_word seed Hseed).
  split; [reflexivity|].
  split; [intros i Hi; apply lcg_chain; unfold N; lia|].
  split; [reflexivity|].
  rewrite <- (seed_word seed Hseed).
  change (Z.land (Z.lor seed 1) 0xFFFFFFFF
          :: lcg (N - 1) (Z.land (Z.lor seed 1) 0xFFFFFFFF) ++ drop N (state mt))
    with (let x := Z.land (Z.lor seed 1) 0xFFFFFFFF in
          x :: lcg (N - 1) x ++ drop N (state mt)).
  rewrite <- (seedMT_state seed mt Hlen). apply randomMT_seedMT.
Qed.

Lemma C4_witness :
  u32 1 /\ length (state fresh) = S N /\
  state (seedMT 1 fresh) !! 0%nat = Some (Z.lor 1 1) /\
  left (seedMT 1 fresh) = 0.
Proof.
  assert (H1 : u32 1) by (unfold u32; lia).
  assert (H2 : length (state fresh) = S N) by reflexivity.
  split; [exact H1|]. split; [exact H2|].
  destruct (C4_seedMT_recurrence 1 fresh H1 H2) as (H0 & _ & Hl & _).
  split; assumption.
Defined.

(** C5: for every [k], seeding with the even value [2 * k] and seeding with
    [2 * k + 1] (both as 32-bit arguments) leave the same engine, so any
    number of [randomMT] calls returns the same values after either. *)
Theorem C5_even_seed_folding (k : Z) (mt : MT) (cnt : nat) :
  seedMT (wrap32 (2 * k)) mt = seedMT (wrap32 (2 * k + 1)) mt /\
  draw cnt (seedMT (wrap32 (2 * k)) mt)
    = draw cnt (seedMT (wrap32 (2 * k + 1)) mt) /\
  (MT_ok mt ->
   exists ws mt',
     draw cnt (seedMT (wrap32 (2 * k)) mt) = Some (ws, mt') /\
     draw cnt (seedMT (wrap32 (2 * k + 1)) mt) = Some (ws, mt') /\
     length ws = cnt).
Proof.
  assert (H : seedMT (wrap32 (2 * k)) mt = seedMT (wrap32 (2 * k + 1)) mt).
  { apply seedMT_word. rewrite seed_word_even, seed_word_odd. reflexivity. }
  rewrite H. split; [reflexivity|]. split; [reflexivity|].
  intros Hok.
  destruct (draw_total cnt _ (seedMT_ok (wrap32 (2 * k + 1)) mt Hok)
              (cursor_ok_seedMT _ mt))
    as (ws & mt' & Hd & Hlen & _).
  exists ws, mt'. auto.
Qed.

Lemma C5_witness :
  MT_ok fresh /\
  exists ws mt',
    draw 3 (seedMT (wrap32 (2 * 3)) fresh) = Some (ws, mt') /\
    draw 3 (seedMT (wrap32 (2 * 3 + 1)) fresh) = Some (ws, mt') /\
    length ws = 3%nat.
Proof.
  split; [exact MT_ok_fresh|].
  exact (proj2 (proj2 (C5_even_seed_folding 3 fresh 3)) MT_ok_fresh).
Defined.

(** C6: for every seed, the finished 256-byte buffer, read as a
    little-endian number the way [BN_lebin2bn] does, is strictly below the
    RSA modulus [n]. *)
Theorem C6_candidate_below_modulus (seed : Z) (mt : MT) :
  MT_ok mt ->
  exists buf,
    candidate seed mt = Some buf /\ length buf = 256%nat /\
    0 <= BN_lebin2bn buf 256 < n.
Proof.
  intros Hok.
  destruct (candidate_spec seed mt Hok) as (ws & _ & Hlen & _ & Hc).
  eexists. split; [exact Hc|].
  split; [apply candidate_length, Hlen|].
  unfold BN_lebin2bn.
  rewrite take_ge by (rewrite (candidate_length ws Hlen); lia).
  destruct (candidate_split ws Hlen) as (low & Hl & Hu & ->).
  rewrite le_combine_app, Hl, last_word_bytes.
  pose proof (le_combine_bound low Hu) as Hb. rewrite Hl in Hb.
  pose proof modulus_large as Hn.
  change (Z.of_nat 252) with 252 in *.
  cbn [le_combine].
  pose proof (Z.mod_pos_bound (ws !!! 63%nat) 256 ltac:(lia)) as H0.
  pose proof (Z.mod_pos_bound (ws !!! 63%nat / 256) 256 ltac:(lia)) as H1.
  revert Hb Hn. generalize (256 ^ 252). intros P Hb Hn.
  set (c := ws !!! 63%nat mod 256
            + 256 * (ws !!! 63%nat / 256 mod 256 + 256 * (2 + 256 * (0 + 256 * 0)))).
  assert (Hc' : 0 <= c <= 196607) by (subst c; lia).
  assert (HP : 0 <= P * c <= P * 196607).
  { split; [apply Z.mul_nonneg_nonneg; lia|].
    apply Z.mul_le_mono_nonneg_l; lia. }
  lia.
Qed.

Lemma C6_witness :
  MT_ok fresh /\
  exists buf, candidate 1 fresh = Some buf /\ 0 <= BN_lebin2bn buf 256 < n.
Proof.
  split; [exact MT_ok_fresh|].
  destruct (C6_candidate_below_modulus 1 fresh MT_ok_fresh) as (buf & Hc & _ & H).
  exists buf. auto.
Defined.

(** C7: every round advances the seed by 2 (modulo [2^32]), in particular
    every round that does not find the target; a run of [main] that exits
    does so with [EXIT_SUCCESS] after a round whose comparison succeeded; no
    run reaches an undefined step; and as long as no round's comparison
    succeeds the run is still in the loop, however many rounds it is
    given. *)
Theorem C7_search_loop (seed0 match_ : Z) :
  u32 seed0 ->
  (forall l, MT_ok (engine l) ->
     exists l', iteration match_ l = Some l' /\
       seed l' = wrap32 (seed l + 2) /\
       done l' = hit match_ (seed l)) /\
  (forall fuel status l',
     main fuel seed0 match_ = Exited status l' ->
     status = EXIT_SUCCESS /\ done l' = true /\
     exists k, (k < fuel)%nat /\
       hit match_ (seed_at seed0 k) = true /\
       (forall i, (i < k)%nat -> hit match_ (seed_at seed0 i) = false) /\
       seed l' = seed_at seed0 (S k)) /\
  (forall fuel, main fuel seed0 match_ <> Undefined) /\
  (forall fuel,
     (forall i, (i < fuel)%nat -> hit match_ (seed_at seed0 i) = false) ->
     exists l', main fuel seed0 match_ = Running l' /\
       seed l' = seed_at seed0 fuel /\ done l' = false /\ stdout l' = []) /\
  (forall k,
     hit match_ (seed_at seed0 k) = true ->
     exists l', main (S k) seed0 match_ = Exited EXIT_SUCCESS l').
Proof.
  intros Hs.
  assert (Hrun : forall fuel,
    match main fuel seed0 match_ with
    | Exited status l' =>
        status = EXIT_SUCCESS /\ done l' = true /\
        exists k, (k < fuel)%nat /\
          hit match_ (seed_at seed0 k) = true /\
          (forall i, (i < k)%nat -> hit match_ (seed_at seed0 i) = false) /\
          seed l' = seed_at seed0 (S k)
    | Running l' =>
        done l' = false /\ seed l' = seed_at seed0 fuel /\
        stdout l' = [] /\
        forall i, (i < fuel)%nat -> hit match_ (seed_at seed0 i) = false
    | Undefined => False
    end).
  { intros fuel. unfold main.
    exact (run_spec fuel match_ (start seed0) MT_ok_fresh Hs eq_refl). }
  split; [|split; [|split; [|split]]].
  - intros l Hok.
    destruct (iteration_done match_ l Hok) as (l' & Hi & _ & Hseed & Hd & _).
    exists l'. auto.
  - intros fuel status l' Hm. specialize (Hrun fuel). rewrite Hm in Hrun.
    exact Hrun.
  - intros fuel Hm. specialize (Hrun fuel). rewrite Hm in Hrun. exact Hrun.
  - intros fuel Hnone. specialize (Hrun fuel).
    destruct (main fuel seed0 match_) as [status l'|l'|]; [|
      |destruct Hrun].
    + destruct Hrun as (_ & _ & k & Hk & Hhit & _).
      rewrite (Hnone k Hk) in Hhit. discriminate Hhit.
    + exists l'. destruct Hrun as (Hd & Hseed & Hout & _). auto.
  - intros k Hhit. specialize (Hrun (S k)).
    destruct (main (S k) seed0 match_) as [status l'|l'|]; [|
      |destruct Hrun].
    + destruct Hrun as (-> & _). exists l'. reflexivity.
    + destruct Hrun as (_ & _ & _ & Hnone).
      rewrite (Hnone k ltac:(lia)) in Hhit. discriminate Hhit.
Qed.

Lemma C7_witness :
  u32 1 /\
  (forall fuel, main fuel 1 (2 ^ 32) <> Undefined) /\
  (forall l, MT_ok (engine l) ->
     exists l', iteration (2 ^ 32) l = Some l' /\
       seed l' = wrap32 (seed l + 2) /\
       done l' = hit (2 ^ 32) (seed l)).
Proof.
  assert (H1 : u32 1) by (unfold u32; lia).
  split; [exact H1|].
  destruct (C7_search_loop 1 (2 ^ 32) H1) as (Hstep & _ & Hdef & _).
  split; assumption.
Defined.

(** C8: in every engine the program can reach - after construction, after
    each completed [seedMT], [randomMT] and [reloadMT], and after the reset
    of line 180 - the countdown is between -1 and 623; [reloadMT], on any
    engine, leaves the countdown at 623 with the cursor on the second state
    word; [seedMT] leaves the countdown at 0; and [randomMT] on a reachable
    engine returns with the countdown between 0 and 623. *)
Theorem C8_countdown_range (mt : MT) :
  reachable mt ->
  -1 <= left mt <= 623 /\
  (forall mt0, left (snd (reloadMT mt0)) = 623 /\
               next (snd (reloadMT mt0)) = Some 1%nat) /\
  (forall seed mt0, left (seedMT seed mt0) = 0) /\
  (exists w mt', randomMT mt = Some (w, mt') /\ 0 <= left mt' <= 623).
Proof.
  intros Hr. destruct (reachable_inv mt Hr) as [Hok Hc].
  split; [apply Hc|].
  split; [intros mt0; apply reloadMT_cursor|]. split; [reflexivity|].
  destruct (randomMT_total mt Hok Hc) as (w & mt' & Hrm & _ & _ & Hc' & Hge).
  exists w, mt'. split; [exact Hrm|]. destruct Hc' as [Hrange _]. lia.
Qed.

Lemma C8_witness :
  reachable fresh /\ -1 <= left fresh <= 623 /\
  left (snd (reloadMT fresh)) = 623.
Proof.
  split; [exact reach_fresh|].
  destruct (C8_countdown_range fresh reach_fresh) as (H1 & H2 & _).
  split; [exact H1|]. exact (proj1 (H2 fresh)).
Defined.

(** C9: a [randomMT] call whose countdown is still non-negative after the
    decrement leaves every state word as it was and changes only the cursor
    (one word further) and the countdown (one less); on an engine the
    program can reach, such a call does return a value. *)
Theorem C9_read_keeps_state (mt : MT) :
  0 <= left mt - 1 ->
  (forall w mt', randomMT mt = Some (w, mt') ->
     state mt' = state mt /\ left mt' = left mt - 1 /\
     next mt' = S <$> next mt) /\
  (reachable mt -> exists w mt', randomMT mt = Some (w, mt')).
Proof.
  intros Hl. split.
  - intros w mt' Hr. unfold randomMT in Hr. cbv zeta in Hr.
    destruct (Z.ltb_spec (left mt - 1) 0) as [Hlt|_]; [lia|].
    destruct (next mt) as [i|]; [|discriminate Hr]. cbn in Hr.
    destruct (state mt !! i) as [y|]; [|discriminate Hr]. cbn in Hr.
    injection Hr as _ <-. cbn [state left next]. auto.
  - intros Hr. destruct (reachable_inv mt Hr) as [Hok Hc].
    destruct (randomMT_total mt Hok Hc) as (w & mt' & Hrm & _).
    exists w, mt'. exact Hrm.
Qed.

Lemma C9_witness :
  0 <= left (snd (regenerate (state fresh))) - 1 /\
  forall w mt',
    randomMT (snd (regenerate (state fresh))) = Some (w, mt') ->
    state mt' = state (snd (regenerate (state fresh))).
Proof.
  assert (H : 0 <= left (snd (regenerate (state fresh))) - 1).
  { destruct (regenerate_cursor (state fresh)) as [-> _]. lia. }
  split; [exact H|].
  intros w mt' Hr.
  exact (proj1 (proj1 (C9_read_keeps_state _ H) w mt' Hr)).
Defined.

(** C10: when [reloadMT] is entered with a countdown below -1, it first
    seeds the engine with the fallback seed 1 and then regenerates, so the
    value it returns and every later value equal those of an engine (this one
    or any other) seeded with 1. *)
Theorem C10_fallback_seed (mt : MT) :
  left mt < -1 ->
  reloadMT mt = regenerate (state (seedMT 1 mt)) /\
  randomMT (seedMT 1 mt) = Some (reloadMT mt) /\
  (forall mt2 cnt, MT_ok mt -> MT_ok mt2 ->
     exists ws mt' mt2',
       draw cnt (snd (reloadMT mt)) = Some (ws, mt') /\
       draw (S cnt) (seedMT 1 mt2) = Some (fst (reloadMT mt) :: ws, mt2')).
Proof.
  intros Hl. rewrite (reloadMT_reseed mt Hl).
  split; [reflexivity|]. split; [apply randomMT_seedMT|].
  intros mt2 cnt Hok Hok2.
  rewrite draw_S, randomMT_seedMT.
  destruct (regenerate_rel _ _ (seedMT_same 1 mt mt2 (proj1 Hok) (proj1 Hok2)))
    as [Hfst Heqv].
  destruct (regenerate_cursor (state (seedMT 1 mt))) as [Hleft Hnext].
  revert Hfst Heqv Hleft Hnext.
  generalize (regenerate (state (seedMT 1 mt))).
  generalize (regenerate (state (seedMT 1 mt2))).
  intros [w2 b] [w1 a]; cbn [fst snd]. intros <- Heqv Hleft Hnext.
  assert (Hc : cursor_ok a).
  { unfold cursor_ok. rewrite Hleft, Hnext. split; [lia|reflexivity]. }
  destruct (draw_eqv cnt a b Heqv Hc) as (ws & a' & b' & Ha & Hb & _).
  exists ws, a', b'. split; [exact Ha|].
  cbn [mbind option_bind]. rewrite Hb. reflexivity.
Qed.

Lemma C10_witness :
  left {| state := state fresh; next := next fresh; left := -2 |} < -1 /\
  reloadMT {| state := state fresh; next := next fresh; left := -2 |}
    = regenerate (state (seedMT 1 fresh)).
Proof.
  assert (H : left {| state := state fresh; next := next fresh; left := -2 |}
              < -1) by (cbn [left]; lia).
  split; [exact H|].
  exact (proj1 (C10_fallback_seed _ H)).
Defined.

(** * Further properties of the code *)

(** ** bswap32 on the bytes of a word *)

Lemma le_split_combine (bs : list Z) :
  Forall u8 bs -> le_split (length bs) (le_combine bs) = bs.
Proof.
  induction 1 as [|b bs Hb _ IH]; [reflexivity|].
  cbn [length le_combine le_split]. unfold u8 in Hb.
  replace (b + 256 * le_combine bs) with (b + le_combine bs * 256) by lia.
  rewrite Z.mod_add, Z.div_add by lia.
  rewrite Z.mod_small, Z.div_small by lia.
  rewrite Z.add_0_l, IH. reflexivity.
Qed.

Lemma le_split4_bytes (x : Z) :
  le_split 4 x = [byte_of 0 x; byte_of 1 x; byte_of 2 x; byte_of 3 x].
Proof.
  unfold byte_of. cbn [le_split].
  rewrite !Z.div_div by lia.
  change (8 * 0) with 0. change (2 ^ 0) with 1. rewrite Z.div_1_r.
  reflexivity.
Qed.

Lemma bswap32_le_split (x : Z) :
  le_split 4 (bswap32 x) = reverse (le_split 4 x).
Proof.
  rewrite (le_split4_bytes x), bswap32_bytes.
  pose proof (byte_of_range 0 x) as H0. pose proof (byte_of_range 1 x) as H1.
  pose proof (byte_of_range 2 x) as H2. pose proof (byte_of_range 3 x) as H3.
  revert H0 H1 H2 H3.
  generalize (byte_of 0 x) (byte_of 1 x) (byte_of 2 x) (byte_of 3 x).
  intros b0 b1 b2 b3 H0 H1 H2 H3.
  change (reverse [b0; b1; b2; b3]) with [b3; b2; b1; b0].
  assert (Hu : Forall u8 [b3; b2; b1; b0])
    by (repeat (apply Forall_cons; split; [assumption|]); apply Forall_nil_2).
  rewrite <- (le_split_combine _ Hu). cbn [length le_combine].
  f_equal. lia.
Qed.

(** X1: [bswap32] returns a 32-bit value whose four bytes are those of its
    argument in reverse order, and applying it twice gives back the low 32
    bits of the argument. *)
Theorem X1_bswap32_reverses_bytes (x : Z) :
  u32 (bswap32 x) /\
  le_split 4 (bswap32 x) = reverse (le_split 4 x) /\
  bswap32 (bswap32 x) = wrap32 x.
Proof.
  split; [apply u32_bswap32|]. split; [apply bswap32_le_split|].
  rewrite <- (wrap32_u32 (bswap32 (bswap32 x))) by apply u32_bswap32.
  rewrite <- !le_combine_split4, !bswap32_le_split, reverse_involutive.
  reflexivity.
Qed.

(** ** Tempering is one-to-one *)

Lemma xorb_cancel_r (a b c : bool) : xorb a c = xorb b c -> a = b.
Proof. destruct a, b, c; simpl; congruence. Qed.

(** [y ^ (y >> k)]: the bits are recovered from the top down. *)
Lemma xor_shiftr_inj (k a b : Z) :
  0 < k -> u32 a -> u32 b ->
  Z.lxor a (Z.shiftr a k) = Z.lxor b (Z.shiftr b k) -> a = b.
Proof.
  intros Hk Ha Hb Heq.
  apply u32_iff in Ha as [Ha0 Ha]. apply u32_iff in Hb as [Hb0 Hb].
  assert (Hbits : forall d : nat, forall i,
            32 - Z.of_nat d <= i -> Z.testbit a i = Z.testbit b i).
  { induction d as [|d IH]; intros i Hi.
    - rewrite Ha, Hb by lia. reflexivity.
    - destruct (Z_lt_le_dec i 0) as [Hneg|Hpos];
        [rewrite !Z.testbit_neg_r by lia; reflexivity|].
      pose proof (f_equal (fun z => Z.testbit z i) Heq) as Hi'.
      cbv beta in Hi'. rewrite !Z.lxor_spec, !Z.shiftr_spec in Hi' by lia.
      rewrite (IH (i + k)) in Hi' by lia.
      eapply xorb_cancel_r, Hi'. }
  apply Z.bits_inj'. intros i Hi. apply (Hbits 32%nat). lia.
Qed.

(** [y ^ ((y << k) & mask)]: the bits are recovered from the bottom up. *)
Lemma xor_shiftl_inj (k mask a b : Z) :
  0 < k ->
  Z.lxor a (Z.land (wrap32 (Z.shiftl a k)) mask)
  = Z.lxor b (Z.land (wrap32 (Z.shiftl b k)) mask) -> a = b.
Proof.
  intros Hk Heq.
  assert (Hbits : forall d : nat, forall i,
            i < Z.of_nat d -> Z.testbit a i = Z.testbit b i).
  { induction d as [|d IH]; intros i Hi.
    - rewrite !Z.testbit_neg_r by lia. reflexivity.
    - destruct (Z_lt_le_dec i 0) as [Hneg|Hpos];
        [rewrite !Z.testbit_neg_r by lia; reflexivity|].
      pose proof (f_equal (fun z => Z.testbit z i) Heq) as Hi'.
      cbv beta in Hi'. rewrite !Z.lxor_spec, !Z.land_spec in Hi'.
      unfold wrap32 in Hi'.
      destruct (Z_lt_le_dec i 32) as [Hlo|Hhi].
      + rewrite !Z.mod_pow2_bits_low, !Z.shiftl_spec in Hi' by lia.
        rewrite (IH (i - k)) in Hi' by lia.
        eapply xorb_cancel_r, Hi'.
      + rewrite !Z.mod_pow2_bits_high in Hi' by lia.
        eapply xorb_cancel_r, Hi'. }
  apply Z.bits_inj'. intros i Hi. apply (Hbits (Z.to_nat (i + 1))). lia.
Qed.

Lemma u32_xor_shiftr (a k : Z) : 0 <= k -> u32 a -> u32 (Z.lxor a (Z.shiftr a k)).
Proof. intros Hk Ha. apply u32_lxor; [exact Ha|apply u32_shiftr; assumption]. Qed.

Lemma u32_xor_shiftl (a k c : Z) :
  u32 a -> u32 c -> u32 (Z.lxor a (Z.land (wrap32 (Z.shiftl a k)) c)).
Proof. intros Ha Hc. apply u32_lxor; [exact Ha|apply u32_land_r, Hc]. Qed.

Lemma temper_inj (a b : Z) : u32 a -> u32 b -> temper a = temper b -> a = b.
Proof.
  intros Ha Hb Heq. unfold temper in Heq. cbv zeta in Heq.
  assert (Hm1 : u32 0x9D2C5680) by (unfold u32; lia).
  assert (Hm2 : u32 0xEFC60000) by (unfold u32; lia).
  apply xor_shiftr_inj in Heq;
    [|lia|repeat first [apply u32_xor_shiftl | apply u32_xor_shiftr];
          auto; lia..].
  apply xor_shiftl_inj in Heq; [|lia].
  apply xor_shiftl_inj in Heq; [|lia].
  apply xor_shiftr_inj in Heq; [exact Heq|lia|assumption..].
Qed.

(** X2: tempering maps 32-bit words to 32-bit words and is one-to-one on
    them: two different state words are never returned as the same value. *)
Theorem X2_temper_injective (a b : Z) :
  u32 a -> u32 b ->
  u32 (temper a) /\ (temper a = temper b -> a = b).
Proof.
  intros Ha Hb. split; [apply u32_temper, Ha|apply temper_inj; assumption].
Qed.

Lemma X2_witness :
  u32 1 /\ u32 2 /\ u32 (temper 1) /\ (temper 1 = temper 2 -> 1 = 2).
Proof.
  assert (H1 : u32 1) by (unfold u32; lia).
  assert (H2 : u32 2) by (unfold u32; lia).
  split; [exact H1|]. split; [exact H2|].
  exact (X2_temper_injective 1 2 H1 H2).
Defined.

(** ** seedMT: the words it writes *)

Lemma lcg_S (k : nat) (x : Z) :
  lcg (S k) x = wrap32 (x * 69069) :: lcg k (wrap32 (x * 69069)).
Proof. reflexivity. Qed.

Lemma lcg_lookup (k : nat) (x : Z) (j : nat) :
  (j < k)%nat -> lcg k x !! j = Some (wrap32 (69069 ^ Z.of_nat (S j) * x)).
Proof.
  revert x j. induction k as [|k IH]; intros x j Hj; [lia|].
  rewrite lcg_S. destruct j as [|j].
  - cbn [lookup list_lookup]. change (Z.of_nat 1) with 1.
    rewrite Z.pow_1_r, Z.mul_comm. reflexivity.
  - change ((wrap32 (x * 69069) :: lcg k (wrap32 (x * 69069))) !! S j)
      with (lcg k (wrap32 (x * 69069)) !! j).
    rewrite IH by lia. f_equal.
    unfold wrap32. rewrite Z.mul_mod_idemp_r by lia.
    rewrite (Nat2Z.inj_succ (S j)), Z.pow_succ_r by lia.
    f_equal. ring.
Qed.

Lemma seedMT_lookup (seed : Z) (mt : MT) (i : nat) :
  length (state mt) = S N -> (i < N)%nat ->
  state (seedMT seed mt) !! i =
    Some (wrap32 (69069 ^ Z.of_nat i * Z.land (Z.lor seed 1) 0xFFFFFFFF)).
Proof.
  intros Hlen Hi. rewrite (seedMT_state seed mt Hlen). cbv zeta.
  generalize (land_ones32 (Z.lor seed 1)).
  generalize (Z.land (Z.lor seed 1) 0xFFFFFFFF). intros x Hx.
  destruct i as [|i].
  - cbn [lookup list_lookup]. change (Z.of_nat 0) with 0.
    rewrite Z.pow_0_r, Z.mul_1_l. f_equal. symmetry.
    apply wrap32_u32. rewrite Hx. apply u32_wrap32.
  - change ((x :: lcg (N - 1) x ++ drop N (state mt)) !! S i)
      with ((lcg (N - 1) x ++ drop N (state mt)) !! i).
    rewrite lookup_app_l by (rewrite lcg_length; unfold N in *; lia).
    apply lcg_lookup. unfold N in *. lia.
Qed.

Lemma wrap32_mod4 (a : Z) : wrap32 a mod 4 = a mod 4.
Proof.
  unfold wrap32. apply Z.mod_mod_divide. exists (2 ^ 30). reflexivity.
Qed.

Lemma pow_69069_mod4 (k : nat) : 69069 ^ Z.of_nat k mod 4 = 1.
Proof.
  induction k as [|k IH]; [reflexivity|].
  rewrite Nat2Z.inj_succ, Z.pow_succ_r by lia.
  rewrite Z.mul_mod, IH by lia. reflexivity.
Qed.

Lemma seed_word_odd_bit (seed : Z) :
  Z.land (Z.lor seed 1) 0xFFFFFFFF mod 2 = 1.
Proof.
  rewrite <- Z.bit0_mod, Z.land_spec, Z.lor_spec.
  change (Z.testbit 1 0) with true. change (Z.testbit 0xFFFFFFFF 0) with true.
  rewrite orb_true_r. reflexivity.
Qed.

(** X3: after [seedMT], state word [i] (for [i] below [N]) is
    [69069^i * x0 mod 2^32] with [x0] the seed with its low bit forced; every
    such word is odd and congruent to [x0] modulo 4, as the comment of lines
    83-98 says of the two lowest bits. *)
Theorem X3_seedMT_words (seed : Z) (mt : MT) (i : nat) :
  length (state mt) = S N -> (i < N)%nat ->
  exists w,
    state (seedMT seed mt) !! i = Some w /\
    w = wrap32 (69069 ^ Z.of_nat i * Z.land (Z.lor seed 1) 0xFFFFFFFF) /\
    w mod 4 = Z.land (Z.lor seed 1) 0xFFFFFFFF mod 4 /\
    w mod 2 = 1.
Proof.
  intros Hlen Hi. eexists. split; [apply seedMT_lookup; assumption|].
  split; [reflexivity|].
  pose proof (seed_word_odd_bit seed) as Hodd.
  revert Hodd. generalize (Z.land (Z.lor seed 1) 0xFFFFFFFF). intros x Hodd.
  assert (H4 : wrap32 (69069 ^ Z.of_nat i * x) mod 4 = x mod 4).
  { rewrite wrap32_mod4, Z.mul_mod, pow_69069_mod4 by lia.
    rewrite Z.mul_1_l. apply Z.mod_mod. lia. }
  split; [exact H4|].
  assert (Hd : (2 | 4)) by (exists 2; reflexivity).
  rewrite <- (Z.mod_mod_divide _ 4 2 Hd), H4, (Z.mod_mod_divide _ 4 2 Hd).
  exact Hodd.
Qed.

Lemma X3_witness :
  length (state fresh) = S N /\ (5 < N)%nat /\
  exists w, state (seedMT 1 fresh) !! 5%nat = Some w /\ w mod 2 = 1.
Proof.
  assert (H1 : length (state fresh) = S N) by reflexivity.
  assert (H2 : (5 < N)%nat) by (unfold N; lia).
  split; [exact H1|]. split; [exact H2|].
  destruct (X3_seedMT_words 1 fresh 5 H1 H2) as (w & Hw & _ & _ & Hodd).
  exists w. split; assumption.
Defined.

(** ** seedMT: what it forgets and what it keeps *)

Lemma seedMT_eta (seed : Z) (mt : MT) :
  seedMT seed mt =
    {| state := state (seedMT seed mt); next := next mt; left := 0 |}.
Proof. reflexivity. Qed.

Lemma seedMT_spare (seed : Z) (mt : MT) :
  length (state mt) = S N ->
  drop N (state (seedMT seed mt)) = drop N (state mt).
Proof.
  intros Hlen. rewrite (seedMT_state seed mt Hlen). cbv zeta.
  generalize (Z.land (Z.lor seed 1) 0xFFFFFFFF). intros x.
  rewrite (app_comm_cons _ _ x).
  apply drop_app_length'. cbn [length]. rewrite lcg_length. unfold N. lia.
Qed.

(** X4: [seedMT] overwrites everything an earlier seeding wrote - seeding
    again gives the engine that seeding once gives - and it leaves the spare
    word [state[N]] and the cursor as they were. *)
Theorem X4_seedMT_overwrites (seed seed' : Z) (mt : MT) :
  length (state mt) = S N ->
  seedMT seed (seedMT seed' mt) = seedMT seed mt /\
  state (seedMT seed mt) !! N = state mt !! N /\
  next (seedMT seed mt) = next mt.
Proof.
  intros Hlen. split; [|split; [|reflexivity]].
  - rewrite (seedMT_eta seed (seedMT seed' mt)), (seedMT_eta seed mt).
    rewrite (seedMT_state seed mt Hlen).
    rewrite (seedMT_state seed (seedMT seed' mt))
      by (apply seedMT_state_length, Hlen).
    rewrite (seedMT_spare seed' mt Hlen). reflexivity.
  - rewrite <- (Nat.add_0_r N), <- !lookup_drop.
    rewrite (seedMT_spare seed mt Hlen). reflexivity.
Qed.

Lemma X4_witness :
  length (state fresh) = S N /\
  seedMT 7 (seedMT 9 fresh) = seedMT 7 fresh.
Proof.
  assert (H1 : length (state fresh) = S N) by reflexivity.
  split; [exact H1|]. exact (proj1 (X4_seedMT_overwrites 7 9 fresh H1)).
Defined.

(** X5: two 32-bit seeds give the same engine exactly when they agree up to
    their low bit; distinct odd seeds give distinct engines. *)
Theorem X5_seedMT_distinguishes (seed1 seed2 : Z) (mt : MT) :
  u32 seed1 -> u32 seed2 -> length (state mt) = S N ->
  (seedMT seed1 mt = seedMT seed2 mt <-> Z.lor seed1 1 = Z.lor seed2 1).
Proof.
  intros H1 H2 Hlen. split.
  - intros Heq.
    assert (H0 : state (seedMT seed1 mt) !! 0%nat
                 = state (seedMT seed2 mt) !! 0%nat) by (rewrite Heq; reflexivity).
    rewrite !(seedMT_state _ mt Hlen) in H0. cbv zeta in H0.
    cbn [lookup list_lookup] in H0.
    rewrite !seed_word in H0 by assumption. congruence.
  - intros Heq. apply seedMT_word. rewrite Heq. reflexivity.
Qed.

Lemma X5_witness :
  u32 4 /\ u32 5 /\ length (state fresh) = S N /\ seedMT 4 fresh = seedMT 5 fresh.
Proof.
  assert (H1 : u32 4) by (unfold u32; lia).
  assert (H2 : u32 5) by (unfold u32; lia).
  assert (H3 : length (state fresh) = S N) by reflexivity.
  split; [exact H1|]. split; [exact H2|]. split; [exact H3|].
  apply (X5_seedMT_distinguishes 4 5 fresh H1 H2 H3). reflexivity.
Defined.

(** ** reloadMT: the recurrence it computes *)

Lemma reload_loop_count (I : nat -> regs -> Prop) (bound : nat) :
  (forall t r, I t r -> (t < bound)%nat -> I (S t) (reload_round r)) ->
  forall j t r, I t r -> (t + (j - 1) <= bound)%nat ->
    I (t + (j - 1))%nat (reload_loop j r).
Proof.
  intros Hstep j. induction j as [|j IH]; intros t r HI Hb.
  - rewrite Nat.add_0_r. exact HI.
  - destruct j as [|j].
    + rewrite Nat.add_0_r. exact HI.
    + rewrite reload_loop_S.
      replace (t + (S (S j) - 1))%nat with (S t + (S j - 1))%nat by lia.
      apply IH; [apply Hstep; [exact HI|lia]|lia].
Qed.

Lemma twist_inv_round (st : list Z) (t : nat) (r : regs) :
  length st = S N ->
  twist_inv st t r -> (t < N - 1)%nat ->
  ((t < N - M)%nat -> pM r = (t + M)%nat) ->
  ((N - M <= t)%nat -> pM r = (t - (N - M))%nat) ->
  twist_inv st (S t) (reload_round r).
Proof.
  intros Hlen (E0 & E2 & Es0 & Es1 & Hl & HA & HB & HC) Ht HpM HpM'.
  assert (Hw : forall i, i <> t ->
            <[t := twist (mem r !!! pM r) (s0 r) (s1 r)]> (mem r) !!! i
            = mem r !!! i)
    by (intros i Hi; apply list_lookup_total_insert_ne; lia).
  assert (Hwt : <[t := twist (mem r !!! pM r) (s0 r) (s1 r)]> (mem r) !!! t
                = twist (mem r !!! pM r) (s0 r) (s1 r))
    by (apply list_lookup_total_insert_eq; lia).
  unfold twist_inv, reload_round; cbn [p0 p2 pM s0 s1 mem].
  rewrite E0, E2, Es1 in *. rewrite length_insert.
  unfold N, M in *.
  split; [reflexivity|]. split; [lia|]. split; [reflexivity|].
  split; [rewrite Hw by lia; replace (t + 2)%nat with (S (S t)) by lia;
          apply HC; lia|].
  split; [exact Hl|].
  split; [|split].
  - intros i Hi Hi'. destruct (Nat.eq_dec i t) as [->|Hne].
    + rewrite Hwt, HpM, Es0, (HC (t + 397)%nat) by lia. reflexivity.
    + rewrite Hw by exact Hne. apply HA; lia.
  - intros i Hi. destruct (Nat.eq_dec i t) as [->|Hne].
    + rewrite Hwt, Hw, HpM', Es0 by lia. reflexivity.
    + rewrite !Hw by lia. apply HB. lia.
  - intros i Hi. rewrite Hw by lia. apply HC. lia.
Qed.

Lemma twist_inv_init (st : list Z) : twist_inv st 0 (reload_init st).
Proof.
  unfold twist_inv, reload_init; cbn [p0 p2 pM s0 s1 mem].
  repeat split; try reflexivity; intros; lia.
Qed.

Lemma twist_inv_last (st : list Z) (r : regs) :
  length st = S N ->
  twist_inv st (N - 1) r -> pM r = (M - 1)%nat ->
  fst (reload_last r) = temper (state (snd (reload_last r)) !!! 0%nat) /\
  twisted st (state (snd (reload_last r))).
Proof.
  intros Hlen (E0 & E2 & Es0 & Es1 & Hl & HA & HB & HC) HpM.
  unfold reload_last, twisted; cbn [fst snd state].
  unfold N, M in *.
  rewrite E0, HpM, Es0.
  set (v := twist (mem r !!! (397 - 1)%nat) (st !!! (624 - 1)%nat)
                  (mem r !!! 0%nat)).
  assert (Hw : forall i, i <> (624 - 1)%nat ->
            <[(624 - 1)%nat := v]> (mem r) !!! i = mem r !!! i)
    by (intros i Hi; apply list_lookup_total_insert_ne; lia).
  assert (Hwt : <[(624 - 1)%nat := v]> (mem r) !!! (624 - 1)%nat = v)
    by (apply list_lookup_total_insert_eq; lia).
  rewrite length_insert.
  split; [rewrite Hw by lia; reflexivity|].
  split; [exact Hl|]. split; [|split; [|split]].
  - intros i Hi. rewrite Hw by lia. apply HA; lia.
  - intros i Hi. rewrite !Hw by lia. apply HB. lia.
  - rewrite Hwt, !Hw by lia. reflexivity.
  - rewrite Hw by lia. apply HC. lia.
Qed.

Lemma regenerate_regs (st : list Z) :
  length st = S N ->
  let r := reload_loop M (reload_wrap (reload_loop (N - M + 1) (reload_init st)))
  in twist_inv st (N - 1) r /\
     p0 r = (N - 1)%nat /\ p2 r = S N /\ pM r = (M - 1)%nat.
Proof.
  intros Hlen. cbv zeta.
  pose proof (reload_loop_count
    (fun t r => twist_inv st t r /\ pM r = (t + M)%nat) (N - M)) as H1.
  specialize (H1 ltac:(intros t r [HI Hp] Ht; split;
    [apply twist_inv_round;
       [exact Hlen|exact HI|unfold N, M in *; lia|intros _; exact Hp|lia]
    |unfold reload_round; cbn [pM]; lia])).
  specialize (H1 (N - M + 1)%nat 0%nat (reload_init st)
    (conj (twist_inv_init st) eq_refl) ltac:(unfold N, M; lia)).
  cbv beta in H1.
  pose proof (reload_loop_pointers (N - M + 1) (reload_init st)) as P1.
  revert H1 P1. generalize (reload_loop (N - M + 1) (reload_init st)).
  intros r1 [HI1 Hp1] _.
  replace (0 + (N - M + 1 - 1))%nat with (N - M)%nat in HI1 by lia.
  pose proof (reload_loop_count
    (fun t r => twist_inv st t r /\ pM r = (t - (N - M))%nat
                /\ (N - M <= t)%nat) (N - 1)) as H2.
  specialize (H2 ltac:(intros t r (HI & Hp & Hge) Ht; split;
    [apply twist_inv_round;
       [exact Hlen|exact HI|exact Ht|lia|intros _; exact Hp]
    |unfold reload_round; cbn [pM]; unfold N, M in *; lia])).
  specialize (H2 M (N - M)%nat (reload_wrap r1)).
  assert (Hw : twist_inv st (N - M) (reload_wrap r1)) by exact HI1.
  assert (Hp : pM (reload_wrap r1) = (N - M - (N - M))%nat)
    by (unfold reload_wrap; cbn [pM]; lia).
  specialize (H2 (conj Hw (conj Hp (Nat.le_refl _)))
                 ltac:(unfold N, M; lia)).
  cbv beta in H2.
  pose proof (reload_loop_pointers M (reload_wrap r1)) as P2.
  destruct HI1 as (E0 & E2 & _).
  change (p0 (reload_wrap r1)) with (p0 r1) in P2.
  change (p2 (reload_wrap r1)) with (p2 r1) in P2.
  rewrite E0, E2 in P2.
  revert H2 P2. generalize (reload_loop M (reload_wrap r1)).
  intros r2 (HI2 & Hp2 & _) (Q0 & Q2 & _).
  replace (N - M + (M - 1))%nat with (N - 1)%nat in * by (unfold N, M; lia).
  split; [exact HI2|]. unfold N, M in *. repeat split; lia.
Qed.

Lemma regenerate_twisted (st : list Z) :
  length st = S N ->
  fst (regenerate st) = temper (state (snd (regenerate st)) !!! 0%nat) /\
  twisted st (state (snd (regenerate st))).
Proof.
  intros Hlen. rewrite regenerate_eq.
  pose proof (regenerate_regs st Hlen) as H. cbv zeta in H. revert H.
  generalize (reload_loop M (reload_wrap
                (reload_loop (N - M + 1) (reload_init st)))).
  intros r (HI & _ & _ & HpM). apply twist_inv_last; assumption.
Qed.

Lemma twisted_spare (st st' : list Z) :
  length st = S N -> twisted st st' -> st' !! N = st !! N.
Proof.
  intros Hlen (Hl & _ & _ & _ & HN).
  rewrite (list_lookup_lookup_total_lt st' N) by (rewrite Hl, Hlen; lia).
  rewrite (list_lookup_lookup_total_lt st N) by (rewrite Hlen; lia).
  rewrite HN. reflexivity.
Qed.

Lemma regenerate_spare (st : list Z) :
  length st = S N -> state (snd (regenerate st)) !! N = st !! N.
Proof.
  intros Hlen. apply twisted_spare; [exact Hlen|].
  apply regenerate_twisted, Hlen.
Qed.

Lemma reloadMT_spare (mt : MT) :
  length (state mt) = S N ->
  state (snd (reloadMT mt)) !! N = state mt !! N.
Proof.
  intros Hlen. rewrite reloadMT_eq.
  destruct (left mt <? -1).
  - rewrite regenerate_spare by (apply seedMT_state_length, Hlen).
    rewrite <- (Nat.add_0_r N) at 1 2. rewrite <- !lookup_drop.
    rewrite seedMT_spare by exact Hlen. reflexivity.
  - apply regenerate_spare, Hlen.
Qed.

Lemma Some_pair_inv {A B : Type} (p : A * B) (a : A) (b : B) :
  Some p = Some (a, b) -> fst p = a /\ snd p = b.
Proof. intros H. injection H as ->. split; reflexivity. Qed.

Lemma randomMT_spare (mt : MT) (w : Z) (mt' : MT) :
  length (state mt) = S N ->
  randomMT mt = Some (w, mt') -> state mt' !! N = state mt !! N.
Proof.
  intros Hlen. unfold randomMT.
  destruct (left mt - 1 <? 0).
  - intros H. apply Some_pair_inv in H. destruct H as [_ <-].
    apply (reloadMT_spare
             {| state := state mt; next := next mt; left := left mt - 1 |}).
    exact Hlen.
  - destruct (next mt) as [i|]; [|discriminate]. cbn [mbind option_bind].
    destruct (state mt !! i) as [y|]; [|discriminate]. cbn [mbind option_bind].
    intros H. injection H as _ <-. reflexivity.
Qed.

Lemma twist_hiBit (m s0 s0' s1 : Z) :
  hiBit s0 = hiBit s0' -> twist m s0 s1 = twist m s0' s1.
Proof. intros H. unfold twist, mixBits. rewrite H. reflexivity. Qed.

Lemma reload_round_first (st : list Z) (v : Z) :
  hiBit v = hiBit (st !!! 0%nat) ->
  reload_round (reload_init (<[0%nat := v]> st))
  = reload_round (reload_init st).
Proof.
  intros Hv. destruct st as [|a st]; [reflexivity|].
  unfold reload_round, reload_init; cbn [p0 p2 pM s0 s1 mem].
  rewrite list_insert_insert_eq.
  change (<[0%nat:=v]> (a :: st)) with (v :: st).
  change ((v :: st) !!! 0%nat) with v.
  change ((v :: st) !!! 1%nat) with ((a :: st) !!! 1%nat).
  change ((v :: st) !!! M) with ((a :: st) !!! M).
  rewrite (twist_hiBit _ v ((a :: st) !!! 0%nat)) by exact Hv.
  reflexivity.
Qed.

Lemma regenerate_first (st : list Z) (v : Z) :
  hiBit v = hiBit (st !!! 0%nat) ->
  regenerate (<[0%nat := v]> st) = regenerate st.
Proof.
  intros Hv. rewrite !regenerate_eq.
  change (N - M + 1)%nat with (S (S 226)).
  rewrite !reload_loop_S. rewrite reload_round_first by exact Hv.
  reflexivity.
Qed.

Lemma reachable_spare (mt : MT) : reachable mt -> state mt !! N = Some 0.
Proof.
  intros H. induction H as [|seed mt H IH|mt H IH|mt w mt' H IH Hr|mt H IH].
  - apply lookup_replicate_2. lia.
  - rewrite <- IH. rewrite <- (Nat.add_0_r N) at 1 2. rewrite <- !lookup_drop.
    rewrite seedMT_spare by apply (reachable_inv mt H). reflexivity.
  - rewrite <- IH. apply reloadMT_spare, (reachable_inv mt H).
  - rewrite <- IH. apply (randomMT_spare mt w), Hr.
    apply (reachable_inv mt H).
  - exact IH.
Qed.

(** X6: [reloadMT] (lines 121-142), entered without the fallback seeding,
    computes the Mersenne Twister recurrence in place: new word [i] is the
    twist of old words [i] and [i + 1] with the old word [i + M] for
    [i < N - M], with the new word [i - (N - M)] for the later ones, and the
    last word wraps around to the new first word; the spare word is kept.
    It returns the tempered new first word and leaves 623 words to read
    from [state + 1]. *)
Theorem X6_reloadMT_recurrence (mt : MT) :
  length (state mt) = S N -> -1 <= left mt ->
  twisted (state mt) (state (snd (reloadMT mt))) /\
  fst (reloadMT mt) = temper (state (snd (reloadMT mt)) !!! 0%nat) /\
  left (snd (reloadMT mt)) = 623 /\
  next (snd (reloadMT mt)) = Some 1%nat.
Proof.
  intros Hlen Hleft. rewrite reloadMT_no_reseed by exact Hleft.
  destruct (regenerate_twisted (state mt) Hlen) as [Hw Ht].
  destruct (regenerate_cursor (state mt)) as [Hl Hn].
  split; [exact Ht|]. split; [exact Hw|]. split; [exact Hl|exact Hn].
Qed.

Lemma X6_witness :
  length (state fresh) = S N /\ -1 <= left fresh /\
  twisted (state fresh) (state (snd (reloadMT fresh))).
Proof.
  assert (H1 : length (state fresh) = S N) by apply length_replicate.
  assert (H2 : -1 <= left fresh) by (cbn [left fresh]; lia).
  split; [exact H1|]. split; [exact H2|].
  exact (proj1 (X6_reloadMT_recurrence fresh H1 H2)).
Defined.

(** X7: the spare word [state[N]] (line 61, ``1 extra to not violate
    ANSI C'') is never written: in every engine the program can reach it
    still holds the zero of static initialisation, and the vector has its
    [N + 1] words. *)
Theorem X7_spare_word_untouched (mt : MT) :
  reachable mt -> state mt !! N = Some 0 /\ length (state mt) = S N.
Proof.
  intros H. split; [apply reachable_spare, H|apply (reachable_inv mt H)].
Qed.

Lemma X7_witness :
  reachable (seedMT 1 fresh) /\ state (seedMT 1 fresh) !! N = Some 0.
Proof.
  assert (H : reachable (seedMT 1 fresh)) by (apply reach_seedMT, reach_fresh).
  split; [exact H|]. exact (proj1 (X7_spare_word_untouched (seedMT 1 fresh) H)).
Defined.

(** X8: the last round of the second loop of [reloadMT] reads the spare
    word through [*p2++] (line 134), but line 137 overwrites what was read:
    the returned value and the [N] words of the new batch do not depend on
    the spare word, nor on where the cursor stood. *)
Theorem X8_reloadMT_ignores_spare_word (mt : MT) (v : Z) (nx : option nat) :
  length (state mt) = S N ->
  let mt2 := {| state := <[N := v]> (state mt); next := nx; left := left mt |}
  in fst (reloadMT mt2) = fst (reloadMT mt) /\
     take N (state (snd (reloadMT mt2))) = take N (state (snd (reloadMT mt))) /\
     state (snd (reloadMT mt2)) !! N = Some v.
Proof.
  intros Hlen mt2.
  assert (Hlen2 : length (state mt2) = S N)
    by (unfold mt2; cbn [state]; rewrite length_insert; exact Hlen).
  assert (Hs : same_words (state mt2) (state mt)).
  { split; [exact Hlen2|]. split; [exact Hlen|].
    unfold mt2; cbn [state]. apply take_insert_ge. lia. }
  destruct (reloadMT_eqv mt2 mt Hs eq_refl) as [Hf [(_ & _ & Ht) _]].
  split; [exact Hf|]. split; [exact Ht|].
  rewrite reloadMT_spare by exact Hlen2.
  unfold mt2; cbn [state]. apply list_lookup_insert_eq. rewrite Hlen. lia.
Qed.

Lemma X8_witness :
  length (state fresh) = S N /\
  fst (reloadMT {| state := <[N := 7]> (state fresh); next := Some 3%nat;
                   left := left fresh |})
  = fst (reloadMT fresh).
Proof.
  assert (H : length (state fresh) = S N) by apply length_replicate.
  split; [exact H|].
  exact (proj1 (X8_reloadMT_ignores_spare_word fresh 7 (Some 3%nat) H)).
Defined.

(** X9: of the first state word only the top bit enters the twist
    ([mixBits (s0, s1)] on line 132 keeps [hiBit (s0)]), and the word is
    overwritten in the first round: when [reloadMT] is entered without
    the fallback seeding, replacing the word by one with the same top bit
    changes neither the value returned nor the engine left. *)
Theorem X9_first_word_low_bits_unused (mt : MT) (v : Z) :
  -1 <= left mt ->
  hiBit v = hiBit (state mt !!! 0%nat) ->
  reloadMT {| state := <[0%nat := v]> (state mt); next := next mt;
              left := left mt |}
  = reloadMT mt.
Proof.
  intros Hleft Hv.
  rewrite !reloadMT_no_reseed by exact Hleft.
  cbn [state]. apply regenerate_first, Hv.
Qed.

Lemma X9_witness :
  -1 <= left fresh /\ hiBit 5 = hiBit (state fresh !!! 0%nat) /\
  reloadMT {| state := <[0%nat := 5]> (state fresh); next := next fresh;
              left := left fresh |}
  = reloadMT fresh.
Proof.
  assert (H1 : -1 <= left fresh) by (cbn [left fresh]; lia).
  assert (H2 : hiBit 5 = hiBit (state fresh !!! 0%nat)) by reflexivity.
  split; [exact H1|]. split; [exact H2|].
  exact (X9_first_word_low_bits_unused fresh 5 H1 H2).
Defined.

(** ** randomMT: reading a batch *)

Lemma draw_read (k : nat) (mt : MT) (i : nat) :
  next mt = Some i -> Z.of_nat k <= left mt ->
  (i + k <= length (state mt))%nat ->
  draw k mt =
    Some (temper <$> take k (drop i (state mt)),
          {| state := state mt; next := Some (i + k)%nat;
             left := left mt - Z.of_nat k |}).
Proof.
  revert mt i. induction k as [|k IH]; intros mt i Hn Hl Hlen.
  - cbn [draw take fmap list_fmap]. rewrite Nat.add_0_r, Z.sub_0_r, <- Hn.
    destruct mt; reflexivity.
  - destruct (lookup_lt_is_Some_2 (state mt) i ltac:(lia)) as [y Hy].
    rewrite draw_S, (randomMT_read mt i y) by (lia || assumption).
    cbn [mbind option_bind].
    rewrite (IH _ (S i)) by (cbn [next left state]; (reflexivity || lia)).
    cbn [mbind option_bind state left].
    rewrite (drop_S _ _ _ Hy). cbn [take fmap list_fmap].
    replace (S i + k)%nat with (i + S k)%nat by lia.
    replace (left mt - 1 - Z.of_nat k) with (left mt - Z.of_nat (S k)) by lia.
    reflexivity.
Qed.

Lemma randomMT_left0 (mt : MT) :
  left mt = 0 -> randomMT mt = Some (regenerate (state mt)).
Proof.
  intros Hl. rewrite randomMT_reload by lia.
  rewrite reloadMT_no_reseed by (cbn [left]; lia). reflexivity.
Qed.

Lemma draw_batch (k : nat) (mt : MT) :
  length (state mt) = S N -> left mt = 0 -> (k < N)%nat ->
  draw (S k) mt =
    Some (temper <$> take (S k) (state (snd (regenerate (state mt)))),
          {| state := state (snd (regenerate (state mt)));
             next := Some (S k); left := 623 - Z.of_nat k |}).
Proof.
  intros Hlen Hl Hk. rewrite draw_S, randomMT_left0 by exact Hl.
  destruct (regenerate_twisted (state mt) Hlen) as [Hw (Hlen' & _)].
  destruct (regenerate_cursor (state mt)) as [Hleft Hnext].
  rewrite Hlen in Hlen'.
  revert Hw Hlen' Hleft Hnext. generalize (regenerate (state mt)).
  intros [w mt1]; cbn [fst snd]. intros -> Hlen' Hleft Hnext.
  cbn [mbind option_bind].
  rewrite (draw_read k mt1 1) by (unfold N in *; lia || assumption).
  cbn [mbind option_bind]. rewrite Hleft.
  destruct (state mt1) as [|a st] eqn:Est; [discriminate Hlen'|].
  reflexivity.
Qed.

(** X10: between two regenerations [randomMT] (lines 144-156) only reads.
    On a reachable engine with [left] words remaining, [k <= left] calls
    return the tempered words [state[624 - left]], ... in order, from
    indices within [1, 623]; the state vector is not written, the cursor
    advances by [k] and the countdown drops by [k]. *)
Theorem X10_randomMT_reads_in_order (k : nat) (mt : MT) :
  reachable mt -> (0 < k)%nat -> Z.of_nat k <= left mt ->
  let i := Z.to_nat (624 - left mt) in
  (1 <= i)%nat /\ (i + k <= N)%nat /\
  draw k mt =
    Some (temper <$> take k (drop i (state mt)),
          {| state := state mt; next := Some (i + k)%nat;
             left := left mt - Z.of_nat k |}).
Proof.
  intros Hr Hk Hl i.
  destruct (reachable_inv mt Hr) as [[Hlen _] [Hrange Hnext]].
  unfold N in *. subst i.
  split; [lia|]. split; [lia|].
  apply draw_read; [apply Hnext; lia|exact Hl|lia].
Qed.

Lemma X10_witness :
  reachable (snd (reloadMT fresh)) /\
  exists ws mt', draw 3 (snd (reloadMT fresh)) = Some (ws, mt').
Proof.
  assert (Hr : reachable (snd (reloadMT fresh)))
    by (apply reach_reloadMT, reach_fresh).
  assert (Hl : Z.of_nat 3 <= left (snd (reloadMT fresh)))
    by (rewrite (proj1 (reloadMT_cursor fresh)); lia).
  split; [exact Hr|].
  destruct (X10_randomMT_reads_in_order 3 (snd (reloadMT fresh)) Hr
              ltac:(lia) Hl) as (_ & _ & Hd).
  eexists _, _. exact Hd.
Defined.

(** X11: the engine hands out the state vector batch by batch.  When the
    countdown is at [0] (as [seedMT] leaves it, and as 624 calls leave it
    again), the next [k + 1 <= 624] calls of [randomMT] regenerate once and
    return the tempered words [0 .. k] of the new batch; after all 624 the
    countdown is back at [0], so the call after them regenerates again. *)
Theorem X11_one_batch_per_624_calls (k : nat) (mt : MT) :
  length (state mt) = S N -> left mt = 0 -> (k < N)%nat ->
  exists mt',
    draw (S k) mt =
      Some (temper <$> take (S k) (state (snd (regenerate (state mt)))), mt') /\
    state mt' = state (snd (regenerate (state mt))) /\
    length (state mt') = S N /\
    left mt' = 623 - Z.of_nat k /\
    (k = 623%nat -> randomMT mt' = Some (regenerate (state mt'))).
Proof.
  intros Hlen Hl Hk.
  pose proof (draw_batch k mt Hlen Hl Hk) as Hd.
  pose proof (proj1 (proj2 (regenerate_twisted _ Hlen))) as Hlen'.
  rewrite Hlen in Hlen'. revert Hd Hlen'.
  generalize (regenerate (state mt)). intros p Hd Hlen'.
  eexists. split; [exact Hd|]. cbn [state left].
  split; [reflexivity|]. split; [exact Hlen'|]. split; [reflexivity|].
  intros ->.
  exact (randomMT_left0
           {| state := state (snd p); next := Some 624%nat;
              left := 623 - Z.of_nat 623 |} eq_refl).
Qed.

Lemma X11_witness :
  length (state (seedMT 1 fresh)) = S N /\
  exists mt',
    draw 64 (seedMT 1 fresh) =
      Some (temper <$> take 64 (state (snd (regenerate (state (seedMT 1 fresh))))),
            mt') /\
    left mt' = 560.
Proof.
  assert (H1 : length (state (seedMT 1 fresh)) = S N)
    by (apply seedMT_state_length, length_replicate).
  split; [exact H1|].
  destruct (X11_one_batch_per_624_calls 63 (seedMT 1 fresh) H1 eq_refl
              ltac:(unfold N; lia)) as (mt' & Hd & _ & _ & Hleft & _).
  exists mt'. split; [exact Hd|exact Hleft].
Defined.

(** ** One trial and the search *)

Lemma drop_last (l : list Z) (k : nat) (x : Z) :
  length l = S k -> l !! k = Some x -> drop k l = [x].
Proof.
  intros Hlen Hx. rewrite (drop_S _ _ _ Hx), drop_ge by lia. reflexivity.
Qed.

Lemma seedMT_state_reachable (seed : Z) (mt : MT) :
  reachable mt -> state (seedMT seed mt) = state (seedMT seed fresh).
Proof.
  intros Hr. pose proof (proj1 (proj1 (reachable_inv mt Hr))) as Hlen.
  rewrite (seedMT_state seed mt Hlen).
  rewrite (seedMT_state seed fresh) by apply length_replicate.
  rewrite (drop_last (state mt) N 0 Hlen (reachable_spare mt Hr)).
  rewrite (drop_last (state fresh) N 0 (length_replicate _ _)
             (reachable_spare fresh reach_fresh)).
  reflexivity.
Qed.

Lemma build_draw (seed : Z) (mt : MT) :
  build seed mt =
    '(ws, mt') ← draw 64 (seedMT seed mt);
    Some (<[245%nat := 0]> (bytes_of_words (store_words 0 ws (replicate 64 0))),
          mt').
Proof.
  unfold build. rewrite seedMT_reset, fill_draw.
  destruct (draw 64 (seedMT seed mt)) as [[ws mt']|]; reflexivity.
Qed.


Lemma build_batch (seed : Z) (mt : MT) :
  length (state mt) = S N ->
  build seed mt =
    Some (candidate_of
            (temper <$> take 64 (state (snd (regenerate (state (seedMT seed mt)))))),
          {| state := state (snd (regenerate (state (seedMT seed mt))));
             next := Some 64%nat; left := 560 |}).
Proof.
  intros Hlen. rewrite build_draw.
  pose proof (seedMT_state_length seed mt Hlen) as Hlen1.
  rewrite (draw_batch 63 (seedMT seed mt) Hlen1 eq_refl) by (unfold N; lia).
  pose proof (proj1 (proj2 (regenerate_twisted _ Hlen1))) as Hlen2.
  rewrite Hlen1 in Hlen2. revert Hlen2.
  generalize (regenerate (state (seedMT seed mt))). intros p Hlen2.
  cbn [mbind option_bind].
  rewrite store_words_64
    by (rewrite ?length_replicate, ?length_fmap, ?length_take; unfold N in *; lia).
  reflexivity.
Qed.

Lemma take_le_split (k m : nat) (x : Z) :
  (k <= m)%nat -> take k (le_split m x) = le_split k x.
Proof.
  revert m x. induction k as [|k IH]; intros m x Hk; [reflexivity|].
  destruct m as [|m]; [lia|]. cbn [le_split take].
  rewrite IH by lia. reflexivity.
Qed.

Lemma load32_first (m : nat) (x : Z) :
  (4 <= m)%nat -> load32 (le_split m x) 0 = x mod 2 ^ 32.
Proof.
  intros Hm. unfold load32. change (4 * 0)%nat with 0%nat.
  rewrite drop_0, take_le_split, le_combine_split by exact Hm.
  reflexivity.
Qed.

Lemma load32_encrypt (buf : list Z) :
  load32 (encrypt buf) 0 = (BN_lebin2bn buf 256 ^ e mod n) mod 2 ^ 32.
Proof.
  pose proof modulus_fits as Hn.
  unfold encrypt, BN_bn2lebinpad, BN_mod_exp.
  rewrite load32_first by lia. rewrite Zpow_mod_correct by lia. reflexivity.
Qed.

Lemma load32_encrypt_range (buf : list Z) : u32 (load32 (encrypt buf) 0).
Proof.
  rewrite load32_encrypt. unfold u32. apply Z.mod_pos_bound. lia.
Qed.

Lemma hit_spec (match_ seed : Z) :
  hit match_ seed = true <->
  exists buf, candidate seed fresh = Some buf /\
    (BN_lebin2bn buf 256 ^ e mod n) mod 2 ^ 32 = match_.
Proof.
  unfold hit, trial.
  destruct (candidate seed fresh) as [buf|]; cbn [fmap option_fmap option_map].
  - rewrite load32_encrypt, Z.eqb_eq. split.
    + intros H. exists buf. split; [reflexivity|exact H].
    + intros (buf' & Hb & H). injection Hb as <-. exact H.
  - split; [discriminate|]. intros (buf' & Hb & _). discriminate Hb.
Qed.

Lemma hit_out_of_range (match_ seed : Z) :
  ~ u32 match_ -> hit match_ seed = false.
Proof.
  intros Hm. destruct (hit match_ seed) eqn:Hh; [|reflexivity].
  apply hit_spec in Hh. destruct Hh as (buf & _ & H).
  exfalso. apply Hm. rewrite <- H. unfold u32. apply Z.mod_pos_bound. lia.
Qed.

Lemma seed_at_period (seed0 : Z) (k : nat) :
  seed_at seed0 (k + Z.to_nat (2 ^ 31)) = seed_at seed0 k.
Proof.
  unfold seed_at, wrap32. rewrite Nat2Z.inj_add, Z2Nat.id by lia.
  replace (seed0 + 2 * (Z.of_nat k + 2 ^ 31))
    with (seed0 + 2 * Z.of_nat k + 1 * 2 ^ 32) by lia.
  apply Z.mod_add. lia.
Qed.

Lemma seed_at_mod (seed0 : Z) (k : nat) :
  seed_at seed0 k = seed_at seed0 (k mod Z.to_nat (2 ^ 31)).
Proof.
  unfold seed_at, wrap32.
  rewrite Nat2Z.inj_mod, Z2Nat.id by lia.
  pose proof (Z.div_mod (Z.of_nat k) (2 ^ 31) ltac:(lia)) as H.
  rewrite H at 1.
  replace (seed0 + 2 * (2 ^ 31 * (Z.of_nat k / 2 ^ 31) + Z.of_nat k mod 2 ^ 31))
    with (seed0 + 2 * (Z.of_nat k mod 2 ^ 31) + (Z.of_nat k / 2 ^ 31) * 2 ^ 32)
    by lia.
  apply Z.mod_add. lia.
Qed.

Lemma run_no_hit (fuel : nat) (match_ : Z) (l : loop) :
  MT_ok (engine l) -> u32 (seed l) -> done l = false ->
  (forall i, (i < fuel)%nat -> hit match_ (seed_at (seed l) i) = false) ->
  exists l', run fuel match_ l = Running l' /\
    seed l' = seed_at (seed l) fuel /\ stdout l' = stdout l.
Proof.
  intros Hok Hs Hd Hnone.
  pose proof (run_spec fuel match_ l Hok Hs Hd) as H.
  destruct (run fuel match_ l) as [status l'|l'|]; [| |destruct H].
  - destruct H as (_ & _ & k & Hk & Hhit & _).
    rewrite (Hnone k Hk) in Hhit. discriminate Hhit.
  - destruct H as (_ & Hseed & Hout & _). exists l'. auto.
Qed.

Lemma run_hit (k : nat) (match_ : Z) (l : loop) :
  MT_ok (engine l) -> u32 (seed l) -> done l = false ->
  hit match_ (seed_at (seed l) k) = true ->
  exists l', run (S k) match_ l = Exited EXIT_SUCCESS l'.
Proof.
  intros Hok Hs Hd Hhit.
  pose proof (run_spec (S k) match_ l Hok Hs Hd) as H.
  destruct (run (S k) match_ l) as [status l'|l'|]; [| |destruct H].
  - destruct H as (-> & _). exists l'. reflexivity.
  - destruct H as (_ & _ & _ & Hnone).
    rewrite (Hnone k ltac:(lia)) in Hhit. discriminate Hhit.
Qed.

(** The line printed by a successful round. *)
Lemma run_report (fuel : nat) (match_ : Z) (l : loop) :
  MT_ok (engine l) -> u32 (seed l) -> done l = false ->
  forall status l', run fuel match_ l = Exited status l' ->
  exists k buf, (k < fuel)%nat /\
    (forall i, (i < k)%nat -> hit match_ (seed_at (seed l) i) = false) /\
    candidate (seed_at (seed l) k) fresh = Some buf /\
    load32 (encrypt buf) 0 = match_ /\
    stdout l' = stdout l ++
      [ {| found_seed := seed_at (seed l) k;
           key_data := words_of_bytes 64 buf;
           seed_data := words_of_bytes 64 (encrypt buf) |} ].
Proof.
  revert l. induction fuel as [|fuel IH]; intros l Hok Hs Hd status l' Hrun.
  - cbn [run] in Hrun. rewrite Hd in Hrun. discriminate Hrun.
  - cbn [run] in Hrun. rewrite Hd in Hrun.
    destruct (iteration_spec match_ l Hok) as (buf & mt1 & Hb & Hok1 & Ht & Hi).
    assert (Hc : candidate (seed l) fresh = Some buf).
    { rewrite (candidate_indep (seed l) fresh (engine l) MT_ok_fresh Hok).
      unfold candidate. rewrite Hb. reflexivity. }
    assert (Hh : hit match_ (seed l) = (load32 (encrypt buf) 0 =? match_))
      by (unfold hit; rewrite Ht; reflexivity).
    rewrite Hi in Hrun. clear Hi Ht.
    remember (encrypt buf) as out eqn:Eout.
    destruct (Z.eqb_spec (load32 out 0) match_) as [He|Hne].
    + destruct fuel; cbn [run done] in Hrun; injection Hrun as _ <-;
        exists 0%nat, buf; rewrite seed_at_0 by exact Hs; rewrite <- Eout;
        (split; [lia|]); (split; [intros i Hi'; lia|]);
        (split; [exact Hc|]); (split; [exact He|]); reflexivity.
    + match type of Hrun with run fuel match_ ?l1 = _ =>
        specialize (IH l1 Hok1 (u32_wrap32 _) eq_refl status l' Hrun) end.
      cbn [seed stdout] in IH.
      destruct IH as (k & buf' & Hk & Hbefore & Hc' & He' & Hout).
      rewrite seed_at_S in Hc', Hout.
      exists (S k), buf'. split; [lia|]. split; [|auto].
      intros [|i] Hi'.
      * rewrite seed_at_0 by exact Hs. exact Hh.
      * rewrite <- seed_at_S. apply Hbefore. lia.
Qed.

Lemma lor_1_idem (s : Z) : Z.lor (Z.lor s 1) 1 = Z.lor s 1.
Proof. rewrite <- Z.lor_assoc, Z.lor_diag. reflexivity. Qed.

Lemma build_low_bit (s : Z) (mt : MT) : build (Z.lor s 1) mt = build s mt.
Proof.
  rewrite !build_draw.
  rewrite (seedMT_word (Z.lor s 1) s mt) by (rewrite lor_1_idem; reflexivity).
  reflexivity.
Qed.

(** X12: a round of the [while] loop (lines 180-204) owes nothing to the
    rounds before it: on every engine the program can reach, the candidate
    buffer and the engine left behind are those the same seed gives on the
    engine as it is when the program starts. *)
Theorem X12_round_starts_from_scratch (seed : Z) (mt : MT) :
  reachable mt -> build seed mt = build seed fresh.
Proof.
  intros Hr. rewrite !build_draw, !(draw_S 63), !randomMT_seedMT.
  rewrite (seedMT_state_reachable seed mt Hr). reflexivity.
Qed.

Lemma X12_witness :
  reachable (seedMT 5 fresh) /\ build 1 (seedMT 5 fresh) = build 1 fresh.
Proof.
  assert (H : reachable (seedMT 5 fresh)) by (apply reach_seedMT, reach_fresh).
  split; [exact H|]. exact (X12_round_starts_from_scratch 1 (seedMT 5 fresh) H).
Defined.

(** X13: a trial costs exactly one regeneration.  The 64 engine values of
    a round are the tempered first 64 words of the batch twisted from the
    seeded state; the round always succeeds in building its buffer, and
    leaves the engine with that batch, the cursor on word 64 and 560 words
    unread (which line 180 then discards). *)
Theorem X13_trial_takes_first_batch (seed : Z) (mt : MT) :
  length (state mt) = S N ->
  exists batch,
    batch = state (snd (regenerate (state (seedMT seed mt)))) /\
    length batch = S N /\
    outputs seed mt = Some (temper <$> take 64 batch) /\
    build seed mt =
      Some (candidate_of (temper <$> take 64 batch),
            {| state := batch; next := Some 64%nat; left := 560 |}).
Proof.
  intros Hlen.
  pose proof (build_batch seed mt Hlen) as Hb.
  pose proof (seedMT_state_length seed mt Hlen) as Hlen1.
  pose proof (draw_batch 63 (seedMT seed mt) Hlen1 eq_refl
                ltac:(unfold N; lia)) as Hd.
  pose proof (proj1 (proj2 (regenerate_twisted _ Hlen1))) as Hlen2.
  rewrite Hlen1 in Hlen2. unfold outputs. rewrite Hd. revert Hb Hlen2.
  generalize (regenerate (state (seedMT seed mt))). intros p Hb Hlen2.
  exists (state (snd p)). split; [reflexivity|]. split; [exact Hlen2|].
  split; [reflexivity|exact Hb].
Qed.

Lemma X13_witness :
  length (state fresh) = S N /\
  exists batch,
    outputs 1 fresh = Some (temper <$> take 64 batch) /\
    build 1 fresh =
      Some (candidate_of (temper <$> take 64 batch),
            {| state := batch; next := Some 64%nat; left := 560 |}).
Proof.
  assert (H : length (state fresh) = S N) by apply length_replicate.
  split; [exact H|].
  destruct (X13_trial_takes_first_batch 1 fresh H) as (batch & _ & _ & Ho & Hb).
  exists batch. split; [exact Ho|exact Hb].
Defined.

(** X14: what a run prints (lines 214-230).  A run that exits has printed
    exactly one report, that of the first round [k] whose trial hits: the
    seed shown is the seed of that round, the key data are the 64 words of
    its candidate buffer as line 206 saw them, the seed data are the 64
    words of its [rsa_output], and the first of these is the target. *)
Theorem X14_exit_prints_one_report
  (fuel : nat) (seed0 match_ status : Z) (l' : loop) :
  u32 seed0 ->
  main fuel seed0 match_ = Exited status l' ->
  exists k buf,
    (k < fuel)%nat /\
    (forall i, (i < k)%nat -> hit match_ (seed_at seed0 i) = false) /\
    candidate (seed_at seed0 k) fresh = Some buf /\
    stdout l' =
      [ {| found_seed := seed_at seed0 k;
           key_data := words_of_bytes 64 buf;
           seed_data := words_of_bytes 64 (encrypt buf) |} ] /\
    words_of_bytes 64 (encrypt buf) !! 0%nat = Some match_.
Proof.
  intros Hs Hrun. unfold main in Hrun.
  destruct (run_report fuel match_ (start seed0) MT_ok_fresh Hs eq_refl
              status l' Hrun) as (k & buf & Hk & Hbefore & Hc & He & Hout).
  exists k, buf. cbn [start seed stdout] in *.
  split; [exact Hk|]. split; [exact Hbefore|]. split; [exact Hc|].
  split; [exact Hout|].
  revert He. generalize (encrypt buf). intros out He.
  unfold words_of_bytes. change (seq 0 64) with (0%nat :: seq 1 63).
  cbn [fmap list_fmap lookup list_lookup]. rewrite He. reflexivity.
Qed.

Lemma X14_witness :
  u32 1 /\
  exists l' k buf,
    main 1 1 (load32 rsa_output_seed1 0) = Exited EXIT_SUCCESS l' /\
    candidate (seed_at 1 k) fresh = Some buf /\
    stdout l' =
      [ {| found_seed := seed_at 1 k;
           key_data := words_of_bytes 64 buf;
           seed_data := words_of_bytes 64 (encrypt buf) |} ].
Proof.
  assert (H1 : u32 1) by (unfold u32; lia).
  split; [exact H1|].
  assert (Hhit : hit (load32 rsa_output_seed1 0) (seed_at 1 0) = true).
  { rewrite seed_at_0 by exact H1. unfold hit. rewrite trial_seed1_eq.
    apply Z.eqb_refl. }
  destruct (run_hit 0 (load32 rsa_output_seed1 0) (start 1) MT_ok_fresh H1
              eq_refl Hhit) as [l' Hrun].
  destruct (X14_exit_prints_one_report 1 1 (load32 rsa_output_seed1 0)
              EXIT_SUCCESS l' H1 Hrun) as (k & buf & _ & _ & Hc & Hout & _).
  exists l', k, buf. split; [exact Hrun|]. split; [exact Hc|exact Hout].
Defined.

(** X15: the seeds of a run repeat after [2^31] rounds ([seed + 2] on a
    [uint32_t], line 185), so a run that has not found the target in its
    first [2^31] rounds never exits: bounded to any number of rounds it is
    still running, having printed nothing. *)
Theorem X15_search_repeats_after_2_31 (seed0 match_ : Z) :
  u32 seed0 ->
  (forall k, seed_at seed0 (k + Z.to_nat (2 ^ 31)) = seed_at seed0 k) /\
  ((forall i, (i < Z.to_nat (2 ^ 31))%nat ->
      hit match_ (seed_at seed0 i) = false) ->
   forall fuel, exists l',
     main fuel seed0 match_ = Running l' /\ stdout l' = []).
Proof.
  intros Hs. split; [intros k; apply seed_at_period|].
  intros Hnone fuel.
  destruct (run_no_hit fuel match_ (start seed0) MT_ok_fresh Hs eq_refl)
    as (l' & Hr & _ & Hout).
  - intros i _. cbn [start seed]. rewrite seed_at_mod. apply Hnone.
    apply Nat.mod_upper_bound. lia.
  - exists l'. split; [exact Hr|exact Hout].
Qed.

Lemma X15_witness :
  u32 1 /\ forall k, seed_at 1 (k + Z.to_nat (2 ^ 31)) = seed_at 1 k.
Proof.
  assert (H : u32 1) by (unfold u32; lia).
  split; [exact H|]. exact (proj1 (X15_search_repeats_after_2_31 1 0 H)).
Defined.

(** X16: line 214 compares a 32-bit word with the 64-bit [match]; a target
    that does not fit 32 bits is equal to no word, so the run never exits
    and never prints, whatever the start seed. *)
Theorem X16_wide_target_never_found (seed0 match_ : Z) (fuel : nat) :
  u32 seed0 -> ~ u32 match_ ->
  exists l', main fuel seed0 match_ = Running l' /\
    seed l' = seed_at seed0 fuel /\ stdout l' = [].
Proof.
  intros Hs Hm.
  apply (run_no_hit fuel match_ (start seed0) MT_ok_fresh Hs eq_refl).
  intros i _. apply hit_out_of_range, Hm.
Qed.

Lemma X16_witness :
  u32 1 /\ ~ u32 (2 ^ 32) /\
  exists l', main 5 1 (2 ^ 32) = Running l' /\
    seed l' = seed_at 1 5 /\ stdout l' = [].
Proof.
  assert (H1 : u32 1) by (unfold u32; lia).
  assert (H2 : ~ u32 (2 ^ 32)) by (unfold u32; lia).
  split; [exact H1|]. split; [exact H2|].
  exact (X16_wide_target_never_found 1 (2 ^ 32) 5 H1 H2).
Defined.

(** X17: the oracle of lines 206-214.  [rsa_output] is 256 bytes, the
    little-endian digits of [data ^ 65537 mod n] with nothing cut off, and
    the word compared with the target is that residue modulo [2^32]; so a
    seed hits exactly when its candidate, raised to 65537 modulo [n],
    ends in the target. *)
Theorem X17_oracle_value (buf : list Z) (match_ seed : Z) :
  length (encrypt buf) = 256%nat /\ Forall u8 (encrypt buf) /\
  BN_lebin2bn (encrypt buf) 256 = BN_lebin2bn buf 256 ^ 65537 mod n /\
  load32 (encrypt buf) 0 = (BN_lebin2bn buf 256 ^ 65537 mod n) mod 2 ^ 32 /\
  (hit match_ seed = true <->
   exists c, candidate seed fresh = Some c /\
     (BN_lebin2bn c 256 ^ 65537 mod n) mod 2 ^ 32 = match_).
Proof.
  split; [apply encrypt_length|].
  split; [unfold encrypt, BN_bn2lebinpad; apply le_split_u8|].
  split; [apply encrypt_value|].
  split; [apply load32_encrypt|apply hit_spec].
Qed.

(** ** What the report shows *)

Lemma land_clear_byte1 (w : Z) :
  u32 w -> Z.land w 0xFFFF00FF = w - byte_of 1 w * 2 ^ 8.
Proof.
  intros Hw.
  assert (H : Z.land w 0xFFFF00FF + Z.land w 0xFF00 = w).
  { rewrite Z.add_nocarry_lxor, Z.lxor_lor.
    - rewrite <- Z.land_lor_distr_r. change (Z.lor 0xFFFF00FF 0xFF00) with (Z.ones 32).
      rewrite Z.land_ones by lia. apply wrap32_u32, Hw.
    - rewrite Z.land_assoc, (Z.land_comm (Z.land w 0xFFFF00FF)), Z.land_assoc.
      rewrite Z.land_diag, <- Z.land_assoc.
      change (Z.land 0xFFFF00FF 0xFF00) with 0. apply Z.land_0_r.
    - rewrite Z.land_assoc, (Z.land_comm (Z.land w 0xFFFF00FF)), Z.land_assoc.
      rewrite Z.land_diag, <- Z.land_assoc.
      change (Z.land 0xFFFF00FF 0xFF00) with 0. apply Z.land_0_r. }
  pose proof (land_field w 1 ltac:(lia)) as Hf.
  change (Z.shiftl (Z.ones 8) (8 * 1)) with 0xFF00 in Hf.
  change (8 * 1) with 8 in Hf. lia.
Qed.

Lemma le_combine_clear_byte1 (w : Z) :
  u32 w -> le_combine (<[1%nat := 0]> (le_split 4 w)) = Z.land w 0xFFFF00FF.
Proof.
  intros Hw. rewrite land_clear_byte1 by exact Hw.
  pose proof (le_combine_split4 w) as H. rewrite (wrap32_u32 w Hw) in H.
  revert H. cbn [le_split le_combine insert list_insert].
  unfold byte_of. change (2 ^ (8 * 1)) with 256. change (2 ^ 8) with 256.
  intros H. lia.
Qed.

Lemma key_data_of (ws : list Z) :
  length ws = 64%nat -> Forall u32 ws ->
  words_of_bytes 64 (candidate_of ws)
  = <[61%nat := Z.land (ws !!! 61%nat) 0xFFFF00FF]> (rand_data_of ws).
Proof.
  intros Hlen Hall. apply list_eq. intros i.
  unfold words_of_bytes. rewrite list_lookup_fmap.
  assert (Hrd : length (rand_data_of ws) = 64%nat)
    by (unfold rand_data_of; rewrite length_app, length_take; cbn [length]; lia).
  destruct (Nat.lt_ge_cases i 64%nat) as [Hi|Hi].
  - rewrite lookup_seq_lt by exact Hi. cbn [fmap option_fmap option_map Nat.add].
    destruct (Nat.eq_dec i 61%nat) as [->|H61].
    + rewrite list_lookup_insert_eq by lia.
      rewrite load32_group, candidate_group_61 by assumption.
      rewrite le_combine_clear_byte1 by (apply u32_lookup_total, Hall).
      reflexivity.
    + rewrite list_lookup_insert_ne by lia.
      destruct (Nat.eq_dec i 63%nat) as [->|H63].
      * rewrite candidate_word_63, rand_data_last by assumption. reflexivity.
      * rewrite candidate_word, rand_data_lookup by (assumption || lia).
        reflexivity.
  - rewrite lookup_seq_ge by exact Hi. cbn [fmap option_fmap option_map].
    symmetry. apply lookup_ge_None. rewrite length_insert. lia.
Qed.

Lemma hit_candidate (match_ seed : Z) (buf : list Z) :
  candidate seed fresh = Some buf ->
  hit match_ seed = (load32 (encrypt buf) 0 =? match_).
Proof. intros H. unfold hit, trial. rewrite H. reflexivity. Qed.

Lemma seed_at_odd (k : Z) (i : nat) :
  seed_at (wrap32 (2 * k + 1)) i = Z.lor (seed_at (wrap32 (2 * k)) i) 1.
Proof.
  assert (H1 : seed_at (wrap32 (2 * k + 1)) i
               = wrap32 (2 * (k + Z.of_nat i) + 1)).
  { unfold seed_at, wrap32. rewrite Zplus_mod_idemp_l. f_equal. lia. }
  assert (H0 : seed_at (wrap32 (2 * k)) i = wrap32 (2 * (k + Z.of_nat i))).
  { unfold seed_at, wrap32. rewrite Zplus_mod_idemp_l. f_equal. lia. }
  rewrite H1, H0, wrap32_double, wrap32_double_succ, lor_1_even.
  reflexivity.
Qed.

Lemma candidate_low_bit (s : Z) :
  candidate (Z.lor s 1) fresh = candidate s fresh.
Proof. unfold candidate. rewrite build_low_bit. reflexivity. Qed.

Lemma hit_low_bit (match_ s : Z) : hit match_ (Z.lor s 1) = hit match_ s.
Proof. unfold hit, trial. rewrite candidate_low_bit. reflexivity. Qed.

(** X18: started at an even seed [2k] or at the odd seed [2k + 1], the
    search makes the same trials: it exits in the same round or not at
    all, and the two reports differ only in the seed shown, which is the
    even one in the first run and the odd one next to it in the second. *)
Theorem X18_even_start_is_odd_start (k match_ : Z) (fuel : nat) :
  match main fuel (wrap32 (2 * k)) match_,
        main fuel (wrap32 (2 * k + 1)) match_ with
  | Exited _ l1, Exited _ l2 =>
      exists r1 r2, stdout l1 = [r1] /\ stdout l2 = [r2] /\
        key_data r2 = key_data r1 /\ seed_data r2 = seed_data r1 /\
        found_seed r2 = Z.lor (found_seed r1) 1
  | Running l1, Running l2 => stdout l1 = [] /\ stdout l2 = []
  | _, _ => False
  end.
Proof.
  assert (Hhit : forall i, hit match_ (seed_at (wrap32 (2 * k + 1)) i)
                         = hit match_ (seed_at (wrap32 (2 * k)) i))
    by (intros i; rewrite seed_at_odd; apply hit_low_bit).
  unfold main.
  pose proof (run_spec fuel match_ (start (wrap32 (2 * k))) MT_ok_fresh
                (u32_wrap32 _) eq_refl) as S1.
  pose proof (run_spec fuel match_ (start (wrap32 (2 * k + 1))) MT_ok_fresh
                (u32_wrap32 _) eq_refl) as S2.
  pose proof (run_report fuel match_ (start (wrap32 (2 * k))) MT_ok_fresh
                (u32_wrap32 _) eq_refl) as R1.
  pose proof (run_report fuel match_ (start (wrap32 (2 * k + 1))) MT_ok_fresh
                (u32_wrap32 _) eq_refl) as R2.
  cbn [start seed stdout] in S1, S2, R1, R2.
  revert S1 S2 R1 R2.
  generalize (run fuel match_ (start (wrap32 (2 * k)))).
  generalize (run fuel match_ (start (wrap32 (2 * k + 1)))).
  intros o2 o1 S1 S2 R1 R2.
  destruct o1 as [st1 l1|l1|]; [| |destruct S1];
    (destruct o2 as [st2 l2|l2|]; [| |destruct S2]).
  - destruct (R1 st1 l1 eq_refl) as (k1 & b1 & _ & Hb1 & Hc1 & He1 & Ho1).
    destruct (R2 st2 l2 eq_refl) as (k2 & b2 & _ & Hb2 & Hc2 & He2 & Ho2).
    assert (Hh1 : hit match_ (seed_at (wrap32 (2 * k)) k1) = true)
      by (rewrite (hit_candidate _ _ _ Hc1); apply Z.eqb_eq, He1).
    assert (Hh2 : hit match_ (seed_at (wrap32 (2 * k + 1)) k2) = true)
      by (rewrite (hit_candidate _ _ _ Hc2); apply Z.eqb_eq, He2).
    assert (Hk : k1 = k2).
    { destruct (lt_eq_lt_dec k1 k2) as [[Hlt|Heq]|Hgt]; [|exact Heq|].
      - specialize (Hb2 k1 Hlt). rewrite Hhit in Hb2. congruence.
      - specialize (Hb1 k2 Hgt). rewrite <- Hhit in Hb1. congruence. }
    subst k2. rewrite seed_at_odd, candidate_low_bit, Hc1 in Hc2.
    injection Hc2 as <-.
    eexists _, _. split; [exact Ho1|]. split; [exact Ho2|].
    cbn [key_data seed_data found_seed].
    split; [reflexivity|]. split; [reflexivity|]. apply seed_at_odd.
  - destruct S1 as (_ & _ & k1 & Hk1 & Hh1 & _).
    destruct S2 as (_ & _ & _ & Hnone).
    rewrite <- Hhit, (Hnone k1 Hk1) in Hh1. discriminate Hh1.
  - destruct S2 as (_ & _ & k2 & Hk2 & Hh2 & _).
    destruct S1 as (_ & _ & _ & Hnone).
    rewrite Hhit, (Hnone k2 Hk2) in Hh2. discriminate Hh2.
  - destruct S1 as (_ & _ & Ho1 & _). destruct S2 as (_ & _ & Ho2 & _).
    split; assumption.
Qed.

(** X19: the key data as printed (lines 220-223 read [rand_data] after
    line 204 has cleared byte 245 through the byte pointer).  They are the
    64 engine values of the round, except that word 61 has lost its second
    byte and word 63 is [0x0002] over the low half of the engine value. *)
Theorem X19_printed_key_data (seed : Z) (mt : MT) :
  MT_ok mt ->
  exists ws buf,
    outputs seed mt = Some ws /\ candidate seed mt = Some buf /\
    words_of_bytes 64 buf =
      <[61%nat := Z.land (ws !!! 61%nat) 0xFFFF00FF]>
        (take 63 ws ++ [Z.land (ws !!! 63%nat) 0xFFFF + 0x20000]).
Proof.
  intros Hok.
  destruct (candidate_spec seed mt Hok) as (ws & Ho & Hlen & Hall & Hc).
  exists ws, (candidate_of ws). split; [exact Ho|]. split; [exact Hc|].
  rewrite (key_data_of ws Hlen Hall). unfold rand_data_of.
  rewrite last_word_closed. reflexivity.
Qed.

Lemma X19_witness :
  MT_ok fresh /\
  exists ws buf,
    outputs 1 fresh = Some ws /\ candidate 1 fresh = Some buf /\
    words_of_bytes 64 buf =
      <[61%nat := Z.land (ws !!! 61%nat) 0xFFFF00FF]>
        (take 63 ws ++ [Z.land (ws !!! 63%nat) 0xFFFF + 0x20000]).
Proof.
  split; [exact MT_ok_fresh|]. exact (X19_printed_key_data 1 fresh MT_ok_fresh).
Defined.

(** ** The report: an RSA pair, and its text *)

Lemma load32_drop (buf : list Z) (j : nat) :
  load32 buf (S j) = load32 (drop 4 buf) j.
Proof.
  unfold load32. rewrite drop_drop.
  replace (4 * S j)%nat with (4 + 4 * j)%nat by lia. reflexivity.
Qed.

Lemma words_of_bytes_S (k : nat) (buf : list Z) :
  words_of_bytes (S k) buf = load32 buf 0 :: words_of_bytes k (drop 4 buf).
Proof.
  unfold words_of_bytes. cbn [seq fmap list_fmap]. f_equal.
  rewrite <- fmap_S_seq, <- list_fmap_compose.
  apply list_fmap_ext. intros i j _. apply load32_drop.
Qed.

Lemma words_of_bytes_length (k : nat) (buf : list Z) :
  length (words_of_bytes k buf) = k.
Proof. unfold words_of_bytes. rewrite length_fmap, length_seq. reflexivity. Qed.

Lemma load32_u32 (buf : list Z) (j : nat) : Forall u8 buf -> u32 (load32 buf j).
Proof.
  intros Hb. unfold load32.
  assert (Hu : Forall u8 (take 4 (drop (4 * j) buf)))
    by apply Forall_take, Forall_drop, Hb.
  pose proof (le_combine_bound _ Hu) as H.
  pose proof (length_take (drop (4 * j) buf) 4) as Hl.
  unfold u32. split; [lia|].
  eapply Z.lt_le_trans; [apply H|].
  change (2 ^ 32) with (256 ^ Z.of_nat 4).
  apply Z.pow_le_mono_r; lia.
Qed.

Lemma words_of_bytes_u32 (k : nat) (buf : list Z) :
  Forall u8 buf -> Forall u32 (words_of_bytes k buf).
Proof.
  intros Hb. unfold words_of_bytes. apply Forall_fmap, Forall_forall.
  intros j _. apply load32_u32, Hb.
Qed.

Lemma words_value_bytes (k : nat) (buf : list Z) :
  length buf = (4 * k)%nat ->
  words_value (words_of_bytes k buf) = le_combine buf.
Proof.
  revert buf. induction k as [|k IH]; intros buf Hlen.
  - destruct buf; [reflexivity|discriminate Hlen].
  - rewrite words_of_bytes_S. cbn [words_value].
    rewrite IH by (rewrite length_drop; lia).
    rewrite <- (take_drop 4 buf) at 3. rewrite le_combine_app.
    rewrite length_take_le by lia.
    unfold load32. change (4 * 0)%nat with 0%nat. rewrite drop_0.
    reflexivity.
Qed.

Lemma candidate_of_u8 (ws : list Z) : Forall u8 (candidate_of ws).
Proof.
  unfold candidate_of. apply Forall_insert; [apply bytes_of_words_u8|].
  unfold u8. lia.
Qed.

Lemma candidate_value_range (ws : list Z) :
  length ws = 64%nat -> 0 <= le_combine (candidate_of ws) < n.
Proof.
  intros Hlen.
  destruct (candidate_split ws Hlen) as (low & Hl & Hu & ->).
  rewrite le_combine_app, Hl, last_word_bytes.
  pose proof (le_combine_bound low Hu) as Hb. rewrite Hl in Hb.
  pose proof modulus_large as Hn.
  change (Z.of_nat 252) with 252 in *.
  cbn [le_combine].
  pose proof (Z.mod_pos_bound (ws !!! 63%nat) 256 ltac:(lia)) as H0.
  pose proof (Z.mod_pos_bound (ws !!! 63%nat / 256) 256 ltac:(lia)) as H1.
  revert Hb Hn. generalize (256 ^ 252). intros P Hb Hn.
  assert (HP : 0 <= P * (ws !!! 63%nat mod 256
                         + 256 * (ws !!! 63%nat / 256 mod 256
                                  + 256 * (2 + 256 * (0 + 256 * 0))))
               <= P * 196607).
  { split; [apply Z.mul_nonneg_nonneg; lia|].
    apply Z.mul_le_mono_nonneg_l; lia. }
  lia.
Qed.

Lemma encrypt_u8 (buf : list Z) : Forall u8 (encrypt buf).
Proof. unfold encrypt, BN_bn2lebinpad. apply le_split_u8. Qed.

Lemma BN_lebin2bn_eq (s : list Z) (len : nat) :
  BN_lebin2bn s len = le_combine (take len s).
Proof. reflexivity. Qed.

Lemma encrypt_facts (buf : list Z) :
  length buf = 256%nat ->
  length (encrypt buf) = 256%nat /\ Forall u8 (encrypt buf) /\
  le_combine (encrypt buf) = le_combine buf ^ e mod n /\
  load32 (encrypt buf) 0 = le_combine (encrypt buf) mod 2 ^ 32.
Proof.
  intros Hlen.
  pose proof (encrypt_value buf) as Hv.
  pose proof (load32_encrypt buf) as Hl.
  pose proof (encrypt_length buf) as Hel.
  pose proof (encrypt_u8 buf) as Heu.
  rewrite !BN_lebin2bn_eq in Hv. rewrite BN_lebin2bn_eq in Hl.
  rewrite (take_ge buf) in Hv, Hl by lia.
  revert Hv Hl Hel Heu. generalize (encrypt buf). intros out Hv Hl Hel Heu.
  rewrite take_ge in Hv by lia.
  split; [exact Hel|]. split; [exact Heu|]. split; [exact Hv|].
  rewrite Hl, Hv. reflexivity.
Qed.

Lemma hex_digits_length (k : nat) (w : Z) (acc : string) :
  String.length (hex_digits k w acc) = (k + String.length acc)%nat.
Proof.
  revert w acc. induction k as [|k IH]; intros w acc; [reflexivity|].
  cbn [hex_digits]. rewrite IH. cbn [String.length]. lia.
Qed.

Lemma string_length_app (a b : string) :
  String.length (a ++ b) = (String.length a + String.length b)%nat.
Proof.
  induction a as [|c a IH]; [reflexivity|].
  cbn [String.append String.length]. rewrite IH. reflexivity.
Qed.

Lemma fmt_08X_length (w : Z) : String.length (fmt_08X w) = 8%nat.
Proof. unfold fmt_08X. rewrite hex_digits_length. reflexivity. Qed.

Lemma string_app_nil_r (a : string) : (a ++ "")%string = a.
Proof.
  induction a as [|c a IH]; [reflexivity|].
  cbn [String.append]. rewrite IH. reflexivity.
Qed.

Lemma string_app_assoc (a b c : string) :
  ((a ++ b) ++ c)%string = (a ++ b ++ c)%string.
Proof.
  induction a as [|x a IH]; [reflexivity|].
  cbn [String.append]. rewrite IH. reflexivity.
Qed.

Lemma print_words_plain (j : nat) (ws : list Z) :
  print_words j ws
  = fold_right (fun w text => (" " ++ fmt_08X w ++ text)%string) ""%string ws.
Proof.
  revert j. induction ws as [|w ws IH]; intros j; [reflexivity|].
  cbn [print_words fold_right].
  assert (Hj : (Z.of_nat j mod 4 =? 4) = false).
  { apply Z.eqb_neq. pose proof (Z.mod_pos_bound (Z.of_nat j) 4 ltac:(lia)). lia. }
  rewrite Hj, IH, string_app_nil_r, string_app_assoc. reflexivity.
Qed.

Lemma print_words_length (j : nat) (ws : list Z) :
  String.length (print_words j ws) = (9 * length ws)%nat.
Proof.
  revert j. induction ws as [|w ws IH]; intros j; [reflexivity|].
  cbn [print_words length].
  assert (Hj : (Z.of_nat j mod 4 =? 4) = false).
  { apply Z.eqb_neq. pose proof (Z.mod_pos_bound (Z.of_nat j) 4 ltac:(lia)). lia. }
  rewrite Hj, !string_length_app, IH, fmt_08X_length.
  cbn [String.length]. lia.
Qed.

Lemma hex_digit_char (d : Z) : 0 <= d < 16 -> hex_digit (hex_char d) = Some d.
Proof.
  intros Hd.
  assert (H : d = 0 \/ d = 1 \/ d = 2 \/ d = 3 \/ d = 4 \/ d = 5 \/ d = 6 \/
              d = 7 \/ d = 8 \/ d = 9 \/ d = 10 \/ d = 11 \/ d = 12 \/
              d = 13 \/ d = 14 \/ d = 15) by lia.
  repeat (destruct H as [->|H]; [reflexivity|]). subst d. reflexivity.
Qed.

Lemma digits2bn_hex_digits (k : nat) (w a : Z) (s : string) :
  digits2bn hex_digit 16 a (hex_digits k w s)
  = digits2bn hex_digit 16 (a * 16 ^ Z.of_nat k + w mod 16 ^ Z.of_nat k) s.
Proof.
  revert w s. induction k as [|k IH]; intros w s.
  - cbn [hex_digits]. rewrite Z.pow_0_r, Z.mod_1_r. f_equal. lia.
  - cbn [hex_digits]. rewrite IH. cbn [digits2bn].
    rewrite hex_digit_char by (apply Z.mod_pos_bound; lia).
    f_equal. rewrite Nat2Z.inj_succ, Z.pow_succ_r by lia.
    rewrite (Z.rem_mul_r w 16 (16 ^ Z.of_nat k)) by lia. lia.
Qed.

Lemma fmt_08X_value (w : Z) : u32 w -> BN_hex2bn (fmt_08X w) = w.
Proof.
  intros Hw. unfold BN_hex2bn, fmt_08X.
  rewrite digits2bn_hex_digits. cbn [digits2bn].
  change (16 ^ Z.of_nat 8) with (2 ^ 32). rewrite Z.mul_0_l, Z.add_0_l.
  apply wrap32_u32, Hw.
Qed.

(** X20: the report of a run that exits is an RSA pair under the public
    key of line 173.  Key data and seed data are 64 words of 32 bits each;
    read as 2048-bit numbers, lowest word first, the seed data are the key
    data raised to [e = 65537] modulo [n], the key data lie below [n], and the
    seed data end in the target. *)
Theorem X20_report_is_rsa_pair
  (fuel : nat) (seed0 match_ status : Z) (l' : loop) :
  u32 seed0 ->
  main fuel seed0 match_ = Exited status l' ->
  exists r,
    stdout l' = [r] /\
    length (key_data r) = 64%nat /\ Forall u32 (key_data r) /\
    length (seed_data r) = 64%nat /\ Forall u32 (seed_data r) /\
    0 <= words_value (key_data r) < n /\
    words_value (seed_data r) = words_value (key_data r) ^ e mod n /\
    words_value (seed_data r) mod 2 ^ 32 = match_.
Proof.
  intros Hs Hrun. unfold main in Hrun.
  destruct (run_report fuel match_ (start seed0) MT_ok_fresh Hs eq_refl
              status l' Hrun) as (k & buf & _ & _ & Hc & He & Hout).
  cbn [start seed stdout] in Hc, Hout.
  destruct (candidate_spec (seed_at seed0 k) fresh MT_ok_fresh)
    as (ws & _ & Hlen & Hall & Hc').
  rewrite Hc in Hc'. injection Hc' as Hbuf.
  pose proof (candidate_length ws Hlen) as Hbl.
  pose proof (candidate_value_range ws Hlen) as Hbn.
  pose proof (candidate_of_u8 ws) as Hbu.
  rewrite <- Hbuf in Hbl, Hbn, Hbu. clear Hbuf Hc.
  destruct (encrypt_facts buf Hbl) as (Hel & Heu & Hv & Hl).
  rewrite He in Hl. clear He. revert Hout Hv Hl Hel Heu.
  generalize (encrypt buf). intros out Hout Hv Hl Hel Heu.
  exists {| found_seed := seed_at seed0 k;
            key_data := words_of_bytes 64 buf;
            seed_data := words_of_bytes 64 out |}.
  split; [exact Hout|]. cbn [key_data seed_data].
  rewrite !words_of_bytes_length.
  rewrite (words_value_bytes 64 buf) by (rewrite Hbl; reflexivity).
  rewrite (words_value_bytes 64 out) by (rewrite Hel; reflexivity).
  split; [reflexivity|].
  split; [apply words_of_bytes_u32, Hbu|].
  split; [reflexivity|].
  split; [apply words_of_bytes_u32, Heu|].
  split; [exact Hbn|]. split; [exact Hv|].
  symmetry. exact Hl.
Qed.

Lemma X20_witness :
  u32 1 /\
  exists l' r,
    main 1 1 (load32 rsa_output_seed1 0) = Exited EXIT_SUCCESS l' /\
    stdout l' = [r] /\
    words_value (seed_data r) = words_value (key_data r) ^ e mod n.
Proof.
  assert (H1 : u32 1) by (unfold u32; lia).
  split; [exact H1|].
  assert (Hhit : hit (load32 rsa_output_seed1 0) (seed_at 1 0) = true).
  { rewrite seed_at_0 by exact H1. unfold hit. rewrite trial_seed1_eq.
    apply Z.eqb_refl. }
  destruct (run_hit 0 (load32 rsa_output_seed1 0) (start 1) MT_ok_fresh H1
              eq_refl Hhit) as [l' Hrun].
  destruct (X20_report_is_rsa_pair 1 1 (load32 rsa_output_seed1 0)
              EXIT_SUCCESS l' H1 Hrun) as (r & Hout & _ & _ & _ & _ & _ & Hv & _).
  exists l', r. split; [exact Hrun|]. split; [exact Hout|exact Hv].
Defined.

(** X21: the text of a report.  The separator of lines 222 and 227 is
    never printed, [j % 4] never being 4: each of the two data lines is its
    words as eight upper-case hexadecimal digits, each preceded by one
    space and followed by nothing; the eight digits of a 32-bit word read
    back as that word; with 64 words in each line the report is 1209
    characters long. *)
Theorem X21_report_text (r : report) (j : nat) (ws : list Z) (w : Z) :
  print_words j ws
    = fold_right (fun w text => (" " ++ fmt_08X w ++ text)%string) ""%string ws /\
  String.length (print_words j ws) = (9 * length ws)%nat /\
  String.length (fmt_08X w) = 8%nat /\
  (u32 w -> BN_hex2bn (fmt_08X w) = w) /\
  (length (key_data r) = 64%nat -> length (seed_data r) = 64%nat ->
   String.length (render r) = 1209%nat).
Proof.
  split; [apply print_words_plain|]. split; [apply print_words_length|].
  split; [apply fmt_08X_length|]. split; [apply fmt_08X_value|].
  intros Hk Hd. unfold render.
  rewrite !string_length_app, !print_words_length, !fmt_08X_length, Hk, Hd.
  reflexivity.
Qed.

(** ** seedMT: the third lowest bit *)

Lemma testbit2_mod8 (w : Z) : Z.testbit w 2 = Z.testbit (w mod 8) 2.
Proof.
  change 8 with (2 ^ 3). rewrite Z.mod_pow2_bits_low by lia. reflexivity.
Qed.

Lemma mod8_mod2 (a : Z) : (a mod 8) mod 2 = a mod 2.
Proof. apply Z.mod_mod_divide. exists 4. reflexivity. Qed.

Lemma wrap32_mod8 (a : Z) : wrap32 a mod 8 = a mod 8.
Proof.
  unfold wrap32. apply Z.mod_mod_divide. exists (2 ^ 29). reflexivity.
Qed.

Lemma lcg_step_bit2 (w : Z) :
  w mod 2 = 1 ->
  Z.testbit (wrap32 (69069 * w)) 2 = negb (Z.testbit w 2).
Proof.
  intros Hodd.
  rewrite (testbit2_mod8 (wrap32 _)), (testbit2_mod8 w), wrap32_mod8.
  rewrite Z.mul_mod by lia. change (69069 mod 8) with 5.
  rewrite <- mod8_mod2 in Hodd.
  pose proof (Z.mod_pos_bound w 8 ltac:(lia)) as Hr.
  revert Hodd Hr. generalize (w mod 8). intros r Hodd Hr.
  assert (H : r = 1 \/ r = 3 \/ r = 5 \/ r = 7).
  { assert (H : r = 0 \/ r = 1 \/ r = 2 \/ r = 3 \/ r = 4 \/ r = 5 \/ r = 6
                \/ r = 7) by lia.
    repeat (destruct H as [->|H]; [first [discriminate Hodd|tauto]|]).
    subst r. tauto. }
  destruct H as [-> | [-> | [-> | ->]]]; reflexivity.
Qed.

Lemma seedMT_step (seed : Z) (mt : MT) (i : nat) :
  length (state mt) = S N -> (S i < N)%nat ->
  state (seedMT seed mt) !!! S i
  = wrap32 (69069 * (state (seedMT seed mt) !!! i)).
Proof.
  intros Hlen Hi.
  rewrite (list_lookup_total_correct (state (seedMT seed mt)) (S i) _
             (seedMT_lookup seed mt (S i) Hlen Hi)).
  rewrite (list_lookup_total_correct (state (seedMT seed mt)) i _
             (seedMT_lookup seed mt i Hlen ltac:(lia))).
  unfold wrap32. rewrite Z.mul_mod_idemp_r by lia.
  rewrite Nat2Z.inj_succ, Z.pow_succ_r by lia. f_equal. ring.
Qed.

Lemma seedMT_word_odd (seed : Z) (mt : MT) (i : nat) :
  length (state mt) = S N -> (i < N)%nat ->
  (state (seedMT seed mt) !!! i) mod 2 = 1.
Proof.
  intros Hlen Hi.
  rewrite (list_lookup_total_correct (state (seedMT seed mt)) i _
             (seedMT_lookup seed mt i Hlen Hi)).
  pose proof (seed_word_odd_bit seed) as Hodd.
  revert Hodd. generalize (Z.land (Z.lor seed 1) 0xFFFFFFFF). intros x Hodd.
  assert (Hd : (2 | 4)) by (exists 2; reflexivity).
  rewrite <- (Z.mod_mod_divide _ 4 2 Hd), wrap32_mod4.
  rewrite Z.mul_mod, pow_69069_mod4, Z.mul_1_l, Z.mod_mod by lia.
  rewrite (Z.mod_mod_divide _ 4 2 Hd). exact Hodd.
Qed.

(** X22: along the seeded state vector the third lowest bit alternates,
    as the comment of lines 87 and 96 says: for [i + 1 < N], bit 2 of
    [state[i + 1]] is the complement of bit 2 of [state[i]]. *)
Theorem X22_seedMT_third_bit_alternates (seed : Z) (mt : MT) (i : nat) :
  length (state mt) = S N -> (S i < N)%nat ->
  Z.testbit (state (seedMT seed mt) !!! S i) 2
  = negb (Z.testbit (state (seedMT seed mt) !!! i) 2).
Proof.
  intros Hlen Hi. rewrite (seedMT_step seed mt i Hlen Hi).
  apply lcg_step_bit2, seedMT_word_odd; [exact Hlen|lia].
Qed.

Lemma X22_witness :
  length (state fresh) = S N /\ (S 5 < N)%nat /\
  Z.testbit (state (seedMT 1 fresh) !!! 6%nat) 2
  = negb (Z.testbit (state (seedMT 1 fresh) !!! 5%nat) 2).
Proof.
  assert (H1 : length (state fresh) = S N) by apply length_replicate.
  assert (H2 : (S 5 < N)%nat) by (unfold N; lia).
  split; [exact H1|]. split; [exact H2|].
  exact (X22_seedMT_third_bit_alternates 1 fresh 5 H1 H2).
Defined.

(** ** reloadMT: where its pointers go *)

Lemma reload_loop_length (j : nat) (r : regs) :
  length (mem (reload_loop j r)) = length (mem r).
Proof.
  apply (reload_loop_inv (fun _ r' => length (mem r') = length (mem r)));
    [|reflexivity].
  intros _ r' Hl. unfold reload_round; cbn [mem]. rewrite length_insert.
  exact Hl.
Qed.

Lemma reload_loop_bounds (t : nat) (r : regs) :
  (p0 r + t < length (mem r))%nat -> (pM r + t < length (mem r))%nat ->
  (p2 r + t < length (mem r))%nat ->
  round_in_bounds (reload_loop (S t) r).
Proof.
  intros H0 HM H2. unfold round_in_bounds.
  destruct (reload_loop_pointers (S t) r) as (E0 & E2 & EM).
  rewrite reload_loop_length, E0, E2, EM. lia.
Qed.

(** X23: the pointers of [reloadMT] stay inside [state[0 .. N]].  In each
    of the 227 rounds of the first loop and the 396 rounds of the second,
    [p0], [pM] and [p2] point into the array when they are dereferenced;
    after the second loop [p0] is at [N - 1] and [pM] at [M - 1] for the
    last assignment, and [p2] is one past the end, the last round having
    read the spare word [state[N]] - the word the declaration adds so as
    ``to not violate ANSI C''. *)
Theorem X23_reloadMT_pointers_in_bounds (st : list Z) :
  length st = S N ->
  exists r1 r2,
    r1 = reload_loop (N - M + 1) (reload_init st) /\
    r2 = reload_loop M (reload_wrap r1) /\
    (forall t, (t < N - M)%nat ->
       round_in_bounds (reload_loop (S t) (reload_init st))) /\
    (forall t, (t < M - 1)%nat ->
       round_in_bounds (reload_loop (S t) (reload_wrap r1))) /\
    p2 (reload_loop (M - 1) (reload_wrap r1)) = N /\
    p0 r2 = (N - 1)%nat /\ pM r2 = (M - 1)%nat /\ p2 r2 = S N /\
    length (mem r2) = S N.
Proof.
  intros Hlen.
  destruct (reload_loop_pointers (N - M + 1) (reload_init st))
    as (E0 & E2 & EM).
  pose proof (reload_loop_length (N - M + 1) (reload_init st)) as El.
  cbn [reload_init p0 p2 pM mem] in E0, E2, EM, El.
  assert (B1 : forall t, (t < N - M)%nat ->
            round_in_bounds (reload_loop (S t) (reload_init st))).
  { intros t Ht. apply reload_loop_bounds; cbn [reload_init p0 p2 pM mem];
      rewrite Hlen; unfold N, M in *; lia. }
  revert E0 E2 EM El. generalize (reload_loop (N - M + 1) (reload_init st)).
  intros r1 E0 E2 EM El.
  exists r1, (reload_loop M (reload_wrap r1)).
  split; [reflexivity|]. split; [reflexivity|]. split; [exact B1|].
  destruct (reload_loop_pointers M (reload_wrap r1)) as (F0 & F2 & FM).
  destruct (reload_loop_pointers (M - 1) (reload_wrap r1)) as (_ & G2 & _).
  pose proof (reload_loop_length M (reload_wrap r1)) as Fl.
  cbn [reload_wrap p0 p2 pM mem] in F0, F2, FM, G2, Fl.
  split.
  { intros t Ht. apply reload_loop_bounds; cbn [reload_wrap p0 p2 pM mem];
      rewrite El, Hlen, ?E0, ?E2; unfold N, M in *; lia. }
  rewrite E2 in G2, F2. rewrite E0 in F0. rewrite Fl, El, Hlen.
  unfold N, M in *. repeat split; lia.
Qed.

Lemma X23_witness :
  length (state fresh) = S N /\
  exists r1 r2,
    r1 = reload_loop (N - M + 1) (reload_init (state fresh)) /\
    r2 = reload_loop M (reload_wrap r1) /\
    p2 r2 = S N /\ length (mem r2) = S N.
Proof.
  assert (H : length (state fresh) = S N) by apply length_replicate.
  split; [exact H|].
  destruct (X23_reloadMT_pointers_in_bounds (state fresh) H)
    as (r1 & r2 & H1 & H2 & _ & _ & _ & _ & _ & Hp & Hl).
  exists r1, r2. split; [exact H1|]. split; [exact H2|].
  split; [exact Hp|exact Hl].
Defined.
